(** * storage/filesystem.go: a name-addressed file store with atomic writes

    Shallow embedding of [FileSystemBase] (package [storage]) and of the
    library calls it is written against, followed by the properties of
    the store.

    Layout:
    - [utf8], [unicode], [strings]: the text functions behind
      [strings.TrimSpace];
    - [filepath]: [filepath.Split] and the two-element [filepath.Join];
    - the world (name space of files, descriptor table, fault oracle,
      the store's [sync.RWMutex], and a history of the calls made) with
      the state monad [M] the Go code runs in;
    - [sync], [os], [ioutil], [io], [atomic], [errors]: the library calls;
    - [storage]: the methods of [FileSystemBase], line by line;
    - the vocabulary of the properties: the atomic write protocol as a
      relation on the calls of one write, and the state of the lock
      along a list of calls;
    - the properties: text, paths, the runs of the library calls and of
      the methods, then the claims C1 to C10 and their instances.

    One world holds one store: its lock is the field [mu] of the world.
    A method is run by one goroutine; what other goroutines do shows
    only in the state the method starts from (a lock already taken, a
    file already there). *)

From Stdlib Require Import NArith ZArith Lia Bool List Ascii String.
From Stdlib Require Import Strings.Byte.
From stdpp Require Import gmap strings.

#[local] Set Warnings "-clear-no-such-hyp".

Local Open Scope N_scope.

(** A Go [string] and a Go [[]byte] are both sequences of bytes; the text
    functions below work on [list byte]. *)
Abbreviation bytes := (list byte).

Definition byteAt (s : bytes) (i : nat) : N := Byte.to_N (nth i s x00).

(* ------------------------------------------------------------------ *)
(** ** unicode/utf8 *)

Module utf8.

Definition rune := N.

Definition RuneError : rune := 0xFFFD.
Definition RuneSelf : N := 0x80.
Definition UTFMax : Z := 4.

Definition maskx : N := 0x3F.
Definition mask2 : N := 0x1F.
Definition mask3 : N := 0x0F.
Definition mask4 : N := 0x07.
Definition locb : N := 0x80.
Definition hicb : N := 0xBF.

(** The table [first] together with [acceptRanges]: for a lead byte,
    the length of the encoding and the range accepted for the second
    byte; [None] for a byte that starts no encoding ([xx]). *)
Definition first (s0 : N) : option (nat * N * N) :=
  if s0 <? 0x80 then Some (1%nat, locb, hicb)
  else if s0 <? 0xC2 then None
  else if s0 <? 0xE0 then Some (2%nat, locb, hicb)
  else if s0 =? 0xE0 then Some (3%nat, 0xA0, hicb)
  else if s0 <? 0xED then Some (3%nat, locb, hicb)
  else if s0 =? 0xED then Some (3%nat, locb, 0x9F)
  else if s0 <? 0xF0 then Some (3%nat, locb, hicb)
  else if s0 =? 0xF0 then Some (4%nat, 0x90, hicb)
  else if s0 <? 0xF4 then Some (4%nat, locb, hicb)
  else if s0 =? 0xF4 then Some (4%nat, locb, 0x8F)
  else None.

(** [utf8.DecodeRuneInString]: the first rune of [s] and its width;
    [(RuneError, 0)] on the empty string and [(RuneError, 1)] on an
    invalid or truncated encoding. *)
Definition DecodeRuneInString (s : bytes) : rune * nat :=
  let n := length s in
  if (n <? 1)%nat then (RuneError, 0%nat) else
  let s0 := byteAt s 0 in
  match first s0 with
  | None => (RuneError, 1%nat)
  | Some (sz, lo, hi) =>
    if (sz =? 1)%nat then (s0, 1%nat) else
    if (n <? sz)%nat then (RuneError, 1%nat) else
    let s1 := byteAt s 1 in
    if (s1 <? lo) || (hi <? s1) then (RuneError, 1%nat) else
    if (sz <=? 2)%nat then
      (N.lor (N.shiftl (N.land s0 mask2) 6) (N.land s1 maskx), 2%nat)
    else
    let s2 := byteAt s 2 in
    if (s2 <? locb) || (hicb <? s2) then (RuneError, 1%nat) else
    if (sz <=? 3)%nat then
      (N.lor (N.lor (N.shiftl (N.land s0 mask3) 12)
                    (N.shiftl (N.land s1 maskx) 6))
             (N.land s2 maskx), 3%nat)
    else
    let s3 := byteAt s 3 in
    if (s3 <? locb) || (hicb <? s3) then (RuneError, 1%nat) else
    (N.lor (N.lor (N.lor (N.shiftl (N.land s0 mask4) 18)
                         (N.shiftl (N.land s1 maskx) 12))
                  (N.shiftl (N.land s2 maskx) 6))
           (N.land s3 maskx), 4%nat)
  end.

(** [utf8.RuneStart]: the byte is not a continuation byte. *)
Definition RuneStart (b : N) : bool := negb (N.land b 0xC0 =? 0x80).

(** The backward scan of [DecodeLastRuneInString]:
    [for start--; start >= lim; start-- { if RuneStart(s[start]) { break } }],
    entered after the first decrement. *)
Fixpoint seekStart (s : bytes) (start lim : Z) (steps : nat) : Z :=
  match steps with
  | O => start
  | S steps' =>
    if (start <? lim)%Z then start
    else if RuneStart (byteAt s (Z.to_nat start)) then start
    else seekStart s (start - 1) lim steps'
  end.

(** [utf8.DecodeLastRuneInString]: the last rune of [s] and its width. *)
Definition DecodeLastRuneInString (s : bytes) : rune * nat :=
  let end_ := Z.of_nat (length s) in
  if (end_ =? 0)%Z then (RuneError, 0%nat) else
  let start := (end_ - 1)%Z in
  let r := byteAt s (Z.to_nat start) in
  if r <? RuneSelf then (r, 1%nat) else
  let lim := (if end_ - UTFMax <? 0 then 0 else end_ - UTFMax)%Z in
  let start := seekStart s (start - 1) lim 4 in
  let start := (if start <? 0 then 0 else start)%Z in
  let '(r, size) := DecodeRuneInString (drop (Z.to_nat start) s) in
  if negb (start + Z.of_nat size =? end_)%Z then (RuneError, 1%nat)
  else (r, size).

End utf8.

(* ------------------------------------------------------------------ *)
(** ** unicode *)

Module unicode.

(** [unicode.IsSpace]: the Latin-1 cases of the switch, then the
    [White_Space] range table. *)
Definition IsSpace (r : utf8.rune) : bool :=
  if r <=? 0xFF then
    (r =? 0x09) || (r =? 0x0A) || (r =? 0x0B) || (r =? 0x0C) ||
    (r =? 0x0D) || (r =? 0x20) || (r =? 0x85) || (r =? 0xA0)
  else
    (r =? 0x1680) || ((0x2000 <=? r) && (r <=? 0x200A)) ||
    (r =? 0x2028) || (r =? 0x2029) || (r =? 0x202F) ||
    (r =? 0x205F) || (r =? 0x3000).

End unicode.

(* ------------------------------------------------------------------ *)
(** ** strings *)

Module strings.

(** [strings.TrimLeftFunc(s, unicode.IsSpace)]: drop leading runes
    while they are white space. The loop runs at most [length s]
    times, which is the fuel. *)
Fixpoint trimLeftLoop (fuel : nat) (s : bytes) : bytes :=
  match fuel with
  | O => s
  | S fuel' =>
    let '(r, size) := utf8.DecodeRuneInString s in
    if unicode.IsSpace r then trimLeftLoop fuel' (drop size s) else s
  end.

Definition TrimLeftSpace (s : bytes) : bytes := trimLeftLoop (length s) s.

(** [strings.TrimRightFunc(s, unicode.IsSpace)]: drop trailing runes,
    decoded from the end, while they are white space. *)
Fixpoint trimRightLoop (fuel : nat) (s : bytes) : bytes :=
  match fuel with
  | O => s
  | S fuel' =>
    let '(r, size) := utf8.DecodeLastRuneInString s in
    if unicode.IsSpace r
    then trimRightLoop fuel' (take (length s - size) s) else s
  end.

Definition TrimRightSpace (s : bytes) : bytes := trimRightLoop (length s) s.

(** [strings.TrimSpace] on the bytes of a string: all leading and
    trailing white space removed, as defined by Unicode. *)
Definition TrimSpaceBytes (s : bytes) : bytes :=
  TrimRightSpace (TrimLeftSpace s).

(** [strings.TrimSpace]. *)
Definition TrimSpace (s : string) : string :=
  string_of_list_byte (TrimSpaceBytes (list_byte_of_string s)).

(** Every rune of [s], as a [range] loop over the string decodes it,
    is white space. *)
Fixpoint allSpaceLoop (fuel : nat) (s : bytes) : bool :=
  match fuel, s with
  | _, [] => true
  | O, _ :: _ => false
  | S fuel', _ :: _ =>
    let '(r, size) := utf8.DecodeRuneInString s in
    unicode.IsSpace r && allSpaceLoop fuel' (drop size s)
  end.

Definition allSpace (s : bytes) : bool := allSpaceLoop (length s) s.

Definition onlySpace (s : string) : bool := allSpace (list_byte_of_string s).

(** No white-space rune at the front, none at the back. *)
Definition noLeadingSpace (s : bytes) : Prop :=
  unicode.IsSpace (utf8.DecodeRuneInString s).1 = false.
Definition noTrailingSpace (s : bytes) : Prop :=
  unicode.IsSpace (utf8.DecodeLastRuneInString s).1 = false.

End strings.


Local Open Scope string_scope.

(* ------------------------------------------------------------------ *)
(** ** path/filepath *)

Module filepath.

(** [filepath.Split]: the path is cut immediately after its final
    separator; the volume name is empty. *)
Fixpoint Split (path : string) : string * string :=
  match path with
  | EmptyString => ("", "")
  | String c rest =>
    let '(dir, file) := Split rest in
    match dir with
    | String _ _ => (String c dir, file)
    | EmptyString =>
      if Ascii.eqb c "/" then (String c "", file) else ("", String c file)
    end
  end.

Fixpoint endsWithSeparator (s : string) : bool :=
  match s with
  | EmptyString => false
  | String c EmptyString => Ascii.eqb c "/"
  | String _ rest => endsWithSeparator rest
  end.

(** [filepath.Join(dir, name)] for a non-empty [dir]: the elements
    joined by one separator. [Clean]'s lexical rewriting ([.] and [..]
    elements, repeated separators) is left out: the world below keys
    files by the spelling of their path. *)
Definition Join (dir name : string) : string :=
  if endsWithSeparator dir then dir ++ name else dir ++ "/" ++ name.

End filepath.

(* ------------------------------------------------------------------ *)
(** ** Errors *)

(** Error numbers decided by the environment rather than by the name
    space: they are what the fault oracle injects. *)
Inductive IOErrno := EACCES | EIO | ENOSPC | EROFS | EMFILE | EINTR | ENOTDIR.

Inductive Errno :=
| ENOENT                    (* os.ErrNotExist *)
| EEXIST                    (* os.ErrExist *)
| ErrClosed                 (* os.ErrClosed: use of a closed file *)
| EFault (c : IOErrno).

(** Go [error] values that reach the store. *)
Inductive error :=
| PathError (Op Path : string) (Err : Errno)          (* *os.PathError *)
| LinkError (Op Old New : string) (Err : Errno)       (* *os.LinkError *)
| streamError (text : string)        (* returned by the caller's reader *)
| withMessage (cause : error) (msg : string)          (* pkg/errors *)
| wrapError (stage : string) (cause : error).         (* natefinch/atomic *)

Module errors.
(** [errors.WithMessage] on a non-nil error. *)
Definition WithMessage (err : error) (message : string) : error :=
  withMessage err message.
End errors.

(* ------------------------------------------------------------------ *)
(** ** The world *)

(** [sync.RWMutex]: one writer, or any number of readers. *)
Record RWMutex := { writer : bool; readers : nat }.

(** [*os.File]. *)
Record File := { Fd : nat; Name : string }.

(** An [io.ReadSeeker] positioned somewhere in its stream: the bytes it
    still yields, and the error (if any) with which reading ends instead
    of [io.EOF]. *)
Record ReadSeeker := { remaining : bytes; failure : option error }.

(** Modelled from the spec: [ReadonlyFile] is declared elsewhere in
    package [storage]; it is an open, caller-owned readable handle, here
    the descriptor, the name it was opened under and the bytes that
    reading it sequentially yields. *)
Record ReadonlyFile := { handle : File; contents : bytes }.

(** One decision of the environment about a system call that the name
    space allows: [None] lets it succeed; a fault makes it fail after
    [progress] bytes were transferred (for a write). *)
Record Fault := { errno : IOErrno; progress : nat }.

Inductive Call :=
| CLock | CUnlock | CRLock | CRUnlock
| CTempFile (dir pattern : string)
| CWrite (name : string)
| CSync (name : string)
| CClose (name : string)
| CRename (oldpath newpath : string)
| CRemove (name : string)
| COpen (name : string)
| CRead (name : string).

(** A call together with the error it returned. *)
Definition Event : Type := Call * option error.

Record World := {
  files : gmap string bytes;      (* the name space: path to content *)
  fds : gset nat;                 (* open descriptors *)
  rand : N;                       (* io/ioutil's random state *)
  faults : list (option Fault);   (* decisions still to come *)
  mu : RWMutex;                   (* the store's a.mu *)
  history : list Event            (* the calls made so far, oldest first *)
}.

Definition set_files (f : gmap string bytes) (w : World) : World :=
  {| files := f; fds := fds w; rand := rand w; faults := faults w;
     mu := mu w; history := history w |}.
Definition set_fds (d : gset nat) (w : World) : World :=
  {| files := files w; fds := d; rand := rand w; faults := faults w;
     mu := mu w; history := history w |}.
Definition set_rand (r : N) (w : World) : World :=
  {| files := files w; fds := fds w; rand := r; faults := faults w;
     mu := mu w; history := history w |}.
Definition set_faults (l : list (option Fault)) (w : World) : World :=
  {| files := files w; fds := fds w; rand := rand w; faults := l;
     mu := mu w; history := history w |}.
Definition set_mu (m : RWMutex) (w : World) : World :=
  {| files := files w; fds := fds w; rand := rand w; faults := faults w;
     mu := m; history := history w |}.
Definition record (c : Call) (r : option error) (w : World) : World :=
  {| files := files w; fds := fds w; rand := rand w; faults := faults w;
     mu := mu w; history := history w ++ [(c, r)] |}.

(** A computation of the goroutine that runs the store's method: it
    returns a value and a new world, or never returns ([None]: it waits
    for a lock nobody releases, or the runtime aborts the program). *)
Definition M (A : Type) : Type := World → option (A * World).

Definition ret {A} (a : A) : M A := λ w, Some (a, w).
Definition bind {A B} (m : M A) (k : A → M B) : M B :=
  λ w, match m w with Some (a, w') => k a w' | None => None end.
Definition get : M World := λ w, Some (w, w).
Definition modify (f : World → World) : M unit := λ w, Some (tt, f w).
Definition never {A} : M A := λ _, None.

Declare Scope go_scope.
Delimit Scope go_scope with go.
Notation "x <- m ; k" := (bind m (λ x, k))
  (at level 20, m at level 100, k at level 200, only parsing) : go_scope.
Notation "' p <- m ; k" := (bind m (λ x, match x with p => k end))
  (at level 20, p pattern, m at level 100, k at level 200, only parsing)
  : go_scope.
Notation "'do' m ; k" := (bind m (λ _, k))
  (at level 20, m at level 100, k at level 200, only parsing) : go_scope.
Local Open Scope go_scope.

(** [defer d] in front of [body]: [d] runs when [body] has returned, and
    what it returns is dropped. *)
Definition defer {A B} (d : M B) (body : M A) : M A :=
  r <- body; do d; ret r.

(** The next decision of the environment; none left means no fault. *)
Definition decision : M (option Fault) :=
  w <- get;
  do modify (set_faults (tail (faults w)));
  ret (hd None (faults w)).

Definition emit (c : Call) (r : option error) : M unit := modify (record c r).

(** Log a call with the error it returns, and return that error. *)
Definition returning (c : Call) (e : option error) : M (option error) :=
  do emit c e; ret e.

(* ------------------------------------------------------------------ *)
(** ** sync *)

Module sync.

Definition free (m : RWMutex) : bool :=
  negb (writer m) && (readers m =? 0)%nat.

(** [RWMutex.Lock]: waits until there is no writer and no reader. *)
Definition Lock : M unit :=
  w <- get;
  if free (mu w)
  then do modify (set_mu {| writer := true; readers := readers (mu w) |});
       emit CLock None
  else never.

(** [RWMutex.Unlock]: a fatal error if the mutex is not locked for
    writing. *)
Definition Unlock : M unit :=
  w <- get;
  if writer (mu w)
  then do modify (set_mu {| writer := false; readers := readers (mu w) |});
       emit CUnlock None
  else never.

(** [RWMutex.RLock]: waits while a writer holds the mutex. *)
Definition RLock : M unit :=
  w <- get;
  if writer (mu w) then never
  else do modify (set_mu {| writer := false; readers := S (readers (mu w)) |});
       emit CRLock None.

(** [RWMutex.RUnlock]: a fatal error if there is no reader. *)
Definition RUnlock : M unit :=
  w <- get;
  match readers (mu w) with
  | O => never
  | S n => do modify (set_mu {| writer := writer (mu w); readers := n |});
           emit CRUnlock None
  end.

End sync.

(* ------------------------------------------------------------------ *)
(** ** os *)

Module os.

(** [os.IsNotExist]. It looks inside [*PathError] and [*LinkError]
    only. *)
Definition IsNotExist (err : option error) : bool :=
  match err with
  | Some (PathError _ _ ENOENT) => true
  | Some (LinkError _ _ _ ENOENT) => true
  | _ => false
  end.

(** [os.Remove]. *)
Definition Remove (name : string) : M (option error) :=
  w <- get;
  match files w !! name with
  | None => returning (CRemove name) (Some (PathError "remove" name ENOENT))
  | Some _ =>
    d <- decision;
    match d with
    | Some f =>
      returning (CRemove name)
                (Some (PathError "remove" name (EFault (errno f))))
    | None =>
      do modify (set_files (delete name (files w)));
      returning (CRemove name) None
    end
  end.

(** [os.Open]: open the named file for reading. *)
Definition Open (name : string) : M (option File * option error) :=
  w <- get;
  match files w !! name with
  | None =>
    e <- returning (COpen name) (Some (PathError "open" name ENOENT));
    ret (None, e)
  | Some _ =>
    d <- decision;
    match d with
    | Some f =>
      e <- returning (COpen name)
                     (Some (PathError "open" name (EFault (errno f))));
      ret (None, e)
    | None =>
      let fd := fresh (fds w) in
      do modify (set_fds ({[fd]} ∪ fds w));
      do emit (COpen name) None;
      ret (Some {| Fd := fd; Name := name |}, None)
    end
  end.

(** [File.Write]: append to the file the descriptor is open on. *)
Definition Write (f : File) (b : bytes) : M (nat * option error) :=
  w <- get;
  if bool_decide (Fd f ∈ fds w) then
    d <- decision;
    match d with
    | Some flt =>
      let n := Nat.min (progress flt) (length b) in
      do modify (set_files (alter (λ old, (old ++ take n b)%list) (Name f) (files w)));
      e <- returning (CWrite (Name f))
                     (Some (PathError "write" (Name f) (EFault (errno flt))));
      ret (n, e)
    | None =>
      do modify (set_files (alter (λ old, (old ++ b)%list) (Name f) (files w)));
      do emit (CWrite (Name f)) None;
      ret (length b, None)
    end
  else
    e <- returning (CWrite (Name f))
                   (Some (PathError "write" (Name f) ErrClosed));
    ret (0%nat, e).

(** Reading an open file to its end. *)
Definition readAll (f : File) : M (bytes * option error) :=
  w <- get;
  if bool_decide (Fd f ∈ fds w) then
    d <- decision;
    match d with
    | Some flt =>
      e <- returning (CRead (Name f))
                     (Some (PathError "read" (Name f) (EFault (errno flt))));
      ret ([], e)
    | None =>
      do emit (CRead (Name f)) None;
      ret (default [] (files w !! Name f), None)
    end
  else
    e <- returning (CRead (Name f))
                   (Some (PathError "read" (Name f) ErrClosed));
    ret ([], e).

(** [File.Sync]. *)
Definition Sync (f : File) : M (option error) :=
  w <- get;
  if bool_decide (Fd f ∈ fds w) then
    d <- decision;
    match d with
    | Some flt =>
      returning (CSync (Name f))
                (Some (PathError "sync" (Name f) (EFault (errno flt))))
    | None => returning (CSync (Name f)) None
    end
  else returning (CSync (Name f)) (Some (PathError "sync" (Name f) ErrClosed)).

(** [File.Close]: the descriptor is released even when the call
    reports an error; closing a closed file is an error. *)
Definition Close (f : File) : M (option error) :=
  w <- get;
  if bool_decide (Fd f ∈ fds w) then
    do modify (set_fds (fds w ∖ {[Fd f]}));
    d <- decision;
    match d with
    | Some flt =>
      returning (CClose (Name f))
                (Some (PathError "close" (Name f) (EFault (errno flt))))
    | None => returning (CClose (Name f)) None
    end
  else returning (CClose (Name f)) (Some (PathError "close" (Name f) ErrClosed)).

End os.

(* ------------------------------------------------------------------ *)
(** ** io/ioutil *)

Module ioutil.

(** [n] decimal digits of [x], most significant first. *)
Fixpoint digits (n : nat) (x : N) : string :=
  match n with
  | O => ""
  | S n' => digits n' (x / 10) ++ String (ascii_of_N (48 + x mod 10)) ""
  end.

(** [nextRandom]: step the generator and print nine digits. *)
Definition nextRandom : M string :=
  w <- get;
  let r := ((rand w * 1664525 + 1013904223) mod 2 ^ 32)%N in
  do modify (set_rand r);
  ret (digits 9 (r mod 1000000000)).

(** [prefixAndSuffix]: the pattern is cut at its last ["*"], if any. *)
Fixpoint lastStar (pattern : string) : option (string * string) :=
  match pattern with
  | EmptyString => None
  | String c rest =>
    match lastStar rest with
    | Some (prefix, suffix) => Some (String c prefix, suffix)
    | None => if Ascii.eqb c "*" then Some ("", rest) else None
    end
  end.

Definition prefixAndSuffix (pattern : string) : string * string :=
  match lastStar pattern with
  | Some ps => ps
  | None => (pattern, "")
  end.

(** The loop of [TempFile]: pick a name, create the file exclusively,
    try another name when that one exists. *)
Fixpoint tempLoop (tries : nat) (dir prefix suffix last : string)
  : M (option File * option error) :=
  match tries with
  | O => ret (None, Some (PathError "open" last EEXIST))
  | S tries' =>
    r <- nextRandom;
    let name := filepath.Join dir (prefix ++ r ++ suffix) in
    w <- get;
    match files w !! name with
    | Some _ => tempLoop tries' dir prefix suffix name
    | None =>
      d <- decision;
      match d with
      | Some flt => ret (None, Some (PathError "open" name (EFault (errno flt))))
      | None =>
        let fd := fresh (fds w) in
        do modify (set_files (<[name := []]> (files w)));
        do modify (set_fds ({[fd]} ∪ fds w));
        ret (Some {| Fd := fd; Name := name |}, None)
      end
    end
  end.

(** [ioutil.TempFile(dir, pattern)] for a non-empty [dir]: a new file
    in [dir], opened for reading and writing, whose name is [pattern]
    with a random string at its end (or in place of its last ["*"]). *)
Definition TempFile (dir pattern : string) : M (option File * option error) :=
  let '(prefix, suffix) := prefixAndSuffix pattern in
  '(f, err) <- tempLoop (N.to_nat 10000) dir prefix suffix "";
  do emit (CTempFile dir pattern) err;
  ret (f, err).

(** [ioutil.ReadFile]. *)
Definition ReadFile (filename : string) : M (bytes * option error) :=
  '(f, err) <- os.Open filename;
  match f, err with
  | Some f, None => defer (os.Close f) (os.readAll f)
  | _, _ => ret ([], err)
  end.

End ioutil.

Module io.

(** [io.Copy(dst, src)]: everything [src] yields is written to [dst];
    the first write or read error ends the copy ([io.EOF] is not an
    error). *)
Definition Copy (dst : File) (src : ReadSeeker) : M (nat * option error) :=
  '(n, err) <- os.Write dst (remaining src);
  match err with
  | Some e => ret (n, Some e)
  | None => ret (n, failure src)
  end.

End io.

Module bytes_.
(** [bytes.NewReader]. *)
Definition NewReader (b : bytes) : ReadSeeker :=
  {| remaining := b; failure := None |}.
End bytes_.

(* ------------------------------------------------------------------ *)
(** ** github.com/natefinch/atomic *)

Module atomic.

(** [atomic.ReplaceFile]: [source] is renamed over [destination] in
    one step, or nothing changes. *)
Definition ReplaceFile (source destination : string) : M (option error) :=
  w <- get;
  match files w !! source with
  | None =>
    returning (CRename source destination)
              (Some (LinkError "rename" source destination ENOENT))
  | Some data =>
    d <- decision;
    match d with
    | Some flt =>
      returning (CRename source destination)
        (Some (LinkError "rename" source destination (EFault (errno flt))))
    | None =>
      do modify (set_files (<[destination := data]> (delete source (files w))));
      returning (CRename source destination) None
    end
  end.

(** Modelled from the spec: [atomic.WriteFile] belongs to
    github.com/natefinch/atomic, which is not part of the sources. It
    is the atomic write protocol without the lock: a temporary file
    next to the destination, the content copied, synced and closed,
    then the replace; the temporary file is removed whatever happens,
    and a failure wraps its cause and names the step
    (create/copy/sync/close/replace). *)
Definition WriteFile (filename : string) (r : ReadSeeker) : M (option error) :=
  let '(dir, file) := filepath.Split filename in
  let dir := if String.eqb dir "" then "." else dir in
  '(f, err) <- ioutil.TempFile dir file;
  match f, err with
  | Some f, None =>
    defer (os.Remove (Name f)) (
    defer (os.Close f) (
      '(_, err) <- io.Copy f r;
      match err with Some e => ret (Some (wrapError "copy" e)) | None =>
      err <- os.Sync f;
      match err with Some e => ret (Some (wrapError "sync" e)) | None =>
      err <- os.Close f;
      match err with Some e => ret (Some (wrapError "close" e)) | None =>
      err <- ReplaceFile (Name f) filename;
      match err with Some e => ret (Some (wrapError "replace" e)) | None =>
      ret None
      end end end end))
  | _, Some e => ret (Some (wrapError "create" e))
  | None, None => never
  end.

End atomic.

(* ------------------------------------------------------------------ *)
(** ** storage/filesystem.go *)

Module storage.

Definition FSName := string.

(** [FileSystemBase]. The field [mu] is mutable state: it lives in the
    world. *)
Record FileSystemBase := { resolvePath : FSName → string }.

Section Methods.
Variable a : FileSystemBase.

Definition getString (name : FSName) : M (string * option error) :=
  '(data, err) <- ioutil.ReadFile (resolvePath a name);
  match err with
  | Some e => ret ("", Some e)
  | None => ret (strings.TrimSpace (string_of_list_byte data), None)
  end.

Definition GetString (name : FSName) : M (string * option error) :=
  do sync.RLock;
  defer sync.RUnlock (
  getString name).

Definition setString (name : FSName) (value : string) : M (option error) :=
  let reader :=
    bytes_.NewReader (list_byte_of_string (strings.TrimSpace value)) in
  atomic.WriteFile (resolvePath a name) reader.

Definition SetString (name : FSName) (value : string) : M (option error) :=
  do sync.Lock;
  defer sync.Unlock (
  setString name value).

Definition getFile (name : FSName) : M (option ReadonlyFile * option error) :=
  '(f, err) <- os.Open (resolvePath a name);
  w <- get;
  ret (match f with
       | Some f =>
         Some {| handle := f; contents := default [] (files w !! Name f) |}
       | None => None
       end, err).

Definition GetFile (name : FSName) : M (option ReadonlyFile * option error) :=
  do sync.RLock;
  defer sync.RUnlock (
  getFile name).

Definition setFile (name : FSName) (value : ReadSeeker) (block : bool)
  : M (option error) :=
  let '(dir, file) := filepath.Split (resolvePath a name) in
  let dir := if String.eqb dir "" then "." else dir in
  '(f, err) <- ioutil.TempFile dir file;
  match f, err with
  | _, Some err => ret (Some (errors.WithMessage err "create temp file"))
  | None, None => never           (* f.Name() on a nil file panics *)
  | Some f, None =>
    defer (os.Remove (Name f)) (
    defer (os.Close f) (
    '(_, err) <- io.Copy f value;
    match err with
    | Some err => ret (Some (errors.WithMessage err "save file"))
    | None =>
    err <- os.Sync f;
    match err with
    | Some err => ret (Some (errors.WithMessage err "sync changes"))
    | None =>
    err <- os.Close f;
    match err with
    | Some err => ret (Some (errors.WithMessage err "close file"))
    | None =>
    (if block
     then λ rest, do sync.Lock; defer sync.Unlock rest
     else λ rest, rest) (
    err <- atomic.ReplaceFile (Name f) (resolvePath a name);
    match err with
    | Some err => ret (Some (errors.WithMessage err "replace file"))
    | None => ret None
    end)
    end end end))
  end.

Definition SetFile (name : FSName) (value : ReadSeeker) : M (option error) :=
  setFile name value true.

Definition removeFile (name : FSName) : M (option error) :=
  os.Remove (resolvePath a name).

Definition RemoveFile (name : FSName) : M (option error) :=
  do sync.Lock;
  defer sync.Unlock (
  removeFile name).

End Methods.

(** The interface [FileSystem], which [FileSystemBase] implements. *)
Class FileSystem (T : Type) := {
  fsGetString : T → FSName → M (string * option error);
  fsGetFile : T → FSName → M (option ReadonlyFile * option error);
  fsSetString : T → FSName → string → M (option error);
  fsSetFile : T → FSName → ReadSeeker → M (option error);
  fsRemoveFile : T → FSName → M (option error)
}.

#[export] Instance FileSystemBase_FileSystem : FileSystem FileSystemBase := {|
  fsGetString := GetString;
  fsGetFile := GetFile;
  fsSetString := SetString;
  fsSetFile := SetFile;
  fsRemoveFile := RemoveFile
|}.

End storage.

(* ------------------------------------------------------------------ *)
(** ** Vocabulary of the properties *)

(** The steps of the atomic write protocol at which a write can fail. *)
Inductive Stage := StCreate | StSave | StSync | StClose | StReplace.

(** The message [setFile] attaches to a failure of each step. *)
Definition stageMessage (s : Stage) : string :=
  match s with
  | StCreate => "create temp file"
  | StSave => "save file"
  | StSync => "sync changes"
  | StClose => "close file"
  | StReplace => "replace file"
  end.

Definition withStage (s : Stage) (err : error) : error :=
  errors.WithMessage err (stageMessage s).

Definition atomicStage (s : Stage) (err : error) : error :=
  wrapError (match s with
             | StCreate => "create" | StSave => "copy" | StSync => "sync"
             | StClose => "close" | StReplace => "replace"
             end) err.

(** The shape [storage.setFile] and [atomic.WriteFile] have in common:
    they differ in how a failure is wrapped and in whether the store's
    lock is taken before the replace. *)
Definition writeProtocol (wrap : Stage → error → error) (block : bool)
    (filename : string) (value : ReadSeeker) : M (option error) :=
  let '(dir, file) := filepath.Split filename in
  let dir := if String.eqb dir "" then "." else dir in
  '(f, err) <- ioutil.TempFile dir file;
  match f, err with
  | _, Some err => ret (Some (wrap StCreate err))
  | None, None => never
  | Some f, None =>
    defer (os.Remove (Name f)) (
    defer (os.Close f) (
    '(_, err) <- io.Copy f value;
    match err with
    | Some err => ret (Some (wrap StSave err))
    | None =>
    err <- os.Sync f;
    match err with
    | Some err => ret (Some (wrap StSync err))
    | None =>
    err <- os.Close f;
    match err with
    | Some err => ret (Some (wrap StClose err))
    | None =>
    (if block
     then λ rest, do sync.Lock; defer sync.Unlock rest
     else λ rest, rest) (
    err <- atomic.ReplaceFile (Name f) filename;
    match err with
    | Some err => ret (Some (wrap StReplace err))
    | None => ret None
    end)
    end end end))
  end.

(** The directory [setFile] creates its temporary file in. *)
Definition tempDir (filename : string) : string :=
  let dir := (filepath.Split filename).1 in
  if String.eqb dir "" then "." else dir.

(** The base name of the destination. *)
Definition baseName (filename : string) : string := (filepath.Split filename).2.

(** [tmp] is a name [ioutil.TempFile dir pattern] can create: in [dir],
    the pattern with nine characters added. *)
Definition tempName (dir pattern tmp : string) : Prop :=
  ∃ rnd, String.length rnd = 9%nat ∧
    tmp = filepath.Join dir ((ioutil.prefixAndSuffix pattern).1 ++ rnd ++
                             (ioutil.prefixAndSuffix pattern).2).

(** What a run of [ioutil.TempFile] leaves behind. *)
Definition created (dir pattern : string) (w w' : World)
    (r : option File * option error) : Prop :=
  mu w' = mu w ∧
  match r with
  | (Some f, None) =>
    tempName dir pattern (Name f) ∧ files w !! Name f = None ∧
    files w' = <[Name f := []]> (files w) ∧
    (Fd f ∉ fds w) ∧ fds w' = {[Fd f]} ∪ fds w
  | (None, Some _) => files w' = files w ∧ fds w' = fds w
  | _ => False
  end.

(** Whether the goroutine holds the write lock: [lockStep] follows it
    over one call, [holdsLock evs] is its state after the events [evs]
    of a method that started without it. *)
Definition lockStep (held : bool) (ev : Event) : bool :=
  match ev.1 with
  | CLock => true
  | CUnlock => false
  | _ => held
  end.

Definition holdsLock (evs : list Event) : bool := fold_left lockStep evs false.

(** The calls of steps 2 to 5 of the protocol: the input and output done
    on the temporary file before the replace. *)
Definition preparation (c : Call) : bool :=
  match c with
  | CTempFile _ _ | CWrite _ | CSync _ | CClose _ => true
  | _ => false
  end.

Definition isRename (c : Call) : bool :=
  match c with CRename _ _ => true | _ => false end.

Definition isLocking (c : Call) : bool :=
  match c with CLock | CUnlock | CRLock | CRUnlock => true | _ => false end.

(** Every preparation call in [evs] is made without the write lock. *)
Definition preparedUnlocked (evs : list Event) : Prop :=
  ∀ pre c r post, evs = (pre ++ (c, r) :: post)%list →
    preparation c = true → holdsLock pre = false.

(** Every replace in [evs] is made under the write lock. *)
Definition replacedLocked (evs : list Event) : Prop :=
  ∀ pre c r post, evs = (pre ++ (c, r) :: post)%list →
    isRename c = true → holdsLock pre = true.

(** Whenever the lock is taken in [evs], the next call is the replace. *)
Definition lockedForReplace (evs : list Event) : Prop :=
  ∀ pre r post, evs = (pre ++ (CLock, r) :: post)%list →
    ∃ source destination r' post',
      post = (CRename source destination, r') :: post'.

(** The lock discipline claimed of a write: it takes the lock only
    immediately before the replace, and prepares the temporary file
    without it. *)
Definition locksOnlyToReplace (op : M (option error)) : Prop :=
  ∀ w err w' evs,
    op w = Some (err, w') → history w' = (history w ++ evs)%list →
    preparedUnlocked evs ∧ lockedForReplace evs.

(** Decision procedures for the three properties of a list of events:
    [everyCall P held evs] checks [P] on each call with the state of the
    lock before it. *)
Fixpoint everyCall (P : bool → Call → bool) (held : bool) (evs : list Event)
  : bool :=
  match evs with
  | [] => true
  | ev :: rest => P held ev.1 && everyCall P (lockStep held ev) rest
  end.

Fixpoint renameAfterLock (evs : list Event) : bool :=
  match evs with
  | [] => true
  | (CLock, _) :: rest =>
    match rest with
    | (CRename _ _, _) :: _ => renameAfterLock rest
    | _ => false
    end
  | _ :: rest => renameAfterLock rest
  end.

Section Protocol.

Variable wrap : Stage → error → error.
Variable block : bool.
Variable filename : string.
Variable value : ReadSeeker.

Definition locking (c : Call) : list Event :=
  if block then [(c, None)] else [].

(** The atomic write protocol, as the sequence of calls one write
    makes and the error it returns, in the words of the protocol:
    create a temporary file next to the destination; copy; sync;
    close; lock if asked to; replace; a failure at a step is returned
    wrapped for that step; the temporary file is closed and removed
    on the way out. [closed] is the error of closing a closed file. *)
Inductive protocolRun (tmp : string) : option error → list Event → Prop :=
| RunCreate e :
    protocolRun tmp (Some (wrap StCreate e))
      [(CTempFile (tempDir filename) (baseName filename), Some e)]
| RunSave e we c r :
    we = Some e ∨ (we = None ∧ failure value = Some e) →
    protocolRun tmp (Some (wrap StSave e))
      [(CTempFile (tempDir filename) (baseName filename), None);
       (CWrite tmp, we);
       (CClose tmp, c); (CRemove tmp, r)]
| RunSync e c r :
    protocolRun tmp (Some (wrap StSync e))
      [(CTempFile (tempDir filename) (baseName filename), None);
       (CWrite tmp, None); (CSync tmp, Some e);
       (CClose tmp, c); (CRemove tmp, r)]
| RunClose e r :
    protocolRun tmp (Some (wrap StClose e))
      [(CTempFile (tempDir filename) (baseName filename), None);
       (CWrite tmp, None); (CSync tmp, None); (CClose tmp, Some e);
       (CClose tmp, Some (PathError "close" tmp ErrClosed));
       (CRemove tmp, r)]
| RunReplace e r :
    protocolRun tmp (Some (wrap StReplace e))
      ([(CTempFile (tempDir filename) (baseName filename), None);
        (CWrite tmp, None); (CSync tmp, None); (CClose tmp, None)]
       ++ locking CLock
       ++ [(CRename tmp filename, Some e)]
       ++ locking CUnlock
       ++ [(CClose tmp, Some (PathError "close" tmp ErrClosed));
           (CRemove tmp, r)])
| RunDone :
    failure value = None →
    protocolRun tmp None
      ([(CTempFile (tempDir filename) (baseName filename), None);
        (CWrite tmp, None); (CSync tmp, None); (CClose tmp, None)]
       ++ locking CLock
       ++ [(CRename tmp filename, None)]
       ++ locking CUnlock
       ++ [(CClose tmp, Some (PathError "close" tmp ErrClosed));
           (CRemove tmp, Some (PathError "remove" tmp ENOENT))]).

(** What one write does to the name space: nothing but to the
    temporary file when it fails, the destination replaced by the
    whole content when it succeeds. *)
Definition writeEffect (tmp : string) (err : option error) (w w' : World)
  : Prop :=
  match err with
  | Some _ => ∀ p, p ≠ tmp → files w' !! p = files w !! p
  | None => files w' = <[filename := remaining value]> (files w)
  end.

End Protocol.

(** The two public ways to write. *)
Inductive WriteCall :=
| CallSetString (value : string)
| CallSetFile (value : ReadSeeker).

Definition write (a : storage.FileSystemBase) (name : storage.FSName)
    (c : WriteCall) : M (option error) :=
  match c with
  | CallSetString value => storage.SetString a name value
  | CallSetFile value => storage.SetFile a name value
  end.

(* ------------------------------------------------------------------ *)
(** ** A store and worlds for the examples *)

(** A store that keeps its files under [data/]. *)
Definition underData : storage.FileSystemBase :=
  {| storage.resolvePath := λ name, "data/" ++ name |}.

(** A world with the files [fs], the coming decisions [fl], nothing open
    and the store's lock free. *)
Definition world (fs : gmap string bytes) (fl : list (option Fault)) : World :=
  {| files := fs; fds := ∅; rand := 42; faults := fl;
     mu := {| writer := false; readers := 0 |}; history := [] |}.

Definition after {A} (m : M A) (w : World) : World :=
  match m w with Some (_, w') => w' | None => w end.

Definition old : bytes := ["o"; "l"; "d"]%byte.

(** The decision that makes the third call that can fail, the sync of
    a write, fail. *)
Definition syncFails : list (option Fault) :=
  [None; None; Some {| errno := EIO; progress := 0 |}].

(* ------------------------------------------------------------------ *)
(** ** The five methods as one family *)

Inductive Method :=
| MGetString
| MGetFile
| MSetString (value : string)
| MSetFile (value : ReadSeeker)
| MRemoveFile.

(** A call of a method of the store, keeping only the error it
    returns. *)
Definition call (a : storage.FileSystemBase) (name : storage.FSName)
    (m : Method) : M (option error) :=
  match m with
  | MGetString => '(_, err) <- storage.GetString a name; ret err
  | MGetFile => '(_, err) <- storage.GetFile a name; ret err
  | MSetString value => storage.SetString a name value
  | MSetFile value => storage.SetFile a name value
  | MRemoveFile => storage.RemoveFile a name
  end.

(** The bytes a write asks the store to keep. *)
Definition content (c : WriteCall) : bytes :=
  match c with
  | CallSetString value => list_byte_of_string (strings.TrimSpace value)
  | CallSetFile value => remaining value
  end.

(* ================================================================== *)
(** * Properties *)

(** ** Text: decoding and trimming *)

Section Decoding.

Import utf8.

Lemma byteAt_app (p x : bytes) (i : nat) :
  (i < length p)%nat → byteAt (p ++ x) i = byteAt p i.
Proof. intros Hi. unfold byteAt. by rewrite app_nth1. Qed.

Lemma first_size (b : N) (sz : nat) (lo hi : N) :
  first b = Some (sz, lo, hi) → (1 ≤ sz ≤ 4)%nat.
Proof.
  unfold first. intros H.
  repeat match type of H with
         | (if ?c then _ else _) = _ => destruct c
         end; inversion H; lia.
Qed.

(** The width of the first rune of a non-empty string is between 1 and 4. *)
Lemma DecodeRune_size (s : bytes) :
  s ≠ [] → (1 ≤ (DecodeRuneInString s).2 ≤ 4)%nat.
Proof.
  intros Hs. unfold DecodeRuneInString.
  destruct (Nat.ltb_spec (length s) 1) as [Hl|Hl].
  { destruct s; [done | simpl in Hl; lia]. }
  destruct (first (byteAt s 0)) as [[[sz lo] hi]|]; simpl; [|lia].
  repeat match goal with
         | |- context [if ?c then _ else _] => destruct c
         end; simpl; lia.
Qed.

(** A rune that decodes without error is decoded from its own bytes:
    what follows them does not matter. *)
Lemma DecodeRune_app (p x : bytes) (r : rune) (k : nat) :
  DecodeRuneInString p = (r, k) → r ≠ RuneError →
  DecodeRuneInString (p ++ x) = (r, k).
Proof.
  unfold DecodeRuneInString. intros H Hr. rewrite length_app.
  destruct (Nat.ltb_spec (length p) 1) as [Hl|Hl]; [by inversion H; subst|].
  destruct (Nat.ltb_spec (length p + length x) 1); [lia|].
  rewrite byteAt_app by lia.
  destruct (first (byteAt p 0)) as [[[sz lo] hi]|] eqn:Hf; [|done].
  apply first_size in Hf.
  destruct (Nat.eqb_spec sz 1); [done|].
  destruct (Nat.ltb_spec (length p) sz) as [Hn|Hn]; [by inversion H; subst|].
  destruct (Nat.ltb_spec (length p + length x) sz); [lia|].
  destruct (Nat.leb_spec sz 2), (Nat.leb_spec sz 3);
    rewrite ?byteAt_app by lia; done.
Qed.

Lemma seekStart_le (s : bytes) (steps : nat) (start lim : Z) :
  (seekStart s start lim steps ≤ start)%Z.
Proof.
  revert start. induction steps as [|n IH]; intros start; simpl; [lia|].
  destruct (start <? lim)%Z; [lia|].
  destruct (RuneStart _); [lia|]. specialize (IH (start - 1)%Z). lia.
Qed.

(** The last rune of a non-empty string is at least one byte wide and
    fits in the string. *)
Lemma DecodeLastRune_size (s : bytes) :
  s ≠ [] → (1 ≤ (DecodeLastRuneInString s).2 ≤ length s)%nat.
Proof.
  intros Hs. unfold DecodeLastRuneInString.
  assert (0 < length s)%nat by (destruct s; [done | simpl; lia]).
  destruct (Z.eqb_spec (Z.of_nat (length s)) 0); [lia|].
  destruct (_ <? RuneSelf)%N; [cbn [snd]; lia|].
  match goal with
  | |- context [seekStart s ?a ?b ?c] =>
    pose proof (seekStart_le s c a b) as Hle; set (st := seekStart s a b c) in *
  end.
  cbv zeta.
  set (start := (if (st <? 0)%Z then 0%Z else st)).
  destruct (DecodeRuneInString _) as [r size].
  destruct (Z.eqb_spec (start + Z.of_nat size) (Z.of_nat (length s)));
    cbn [negb snd]; [|lia].
  subst start. destruct (Z.ltb_spec st 0); lia.
Qed.

Lemma IsSpace_RuneError : unicode.IsSpace RuneError = false.
Proof. reflexivity. Qed.

Lemma IsSpace_valid (r : rune) : unicode.IsSpace r = true → r ≠ RuneError.
Proof. intros H ->. by rewrite IsSpace_RuneError in H. Qed.

End Decoding.

Section Trimming.

Import strings.

Lemma noLeadingSpace_nil : noLeadingSpace [].
Proof. reflexivity. Qed.

Lemma noTrailingSpace_nil : noTrailingSpace [].
Proof. reflexivity. Qed.

(** With enough fuel the left loop stops at a string that does not
    start with white space, and that string is a suffix. *)
Lemma trimLeftLoop_spec (fuel : nat) (s : bytes) :
  (length s ≤ fuel)%nat →
  noLeadingSpace (trimLeftLoop fuel s) ∧
  ∃ k, trimLeftLoop fuel s = drop k s.
Proof.
  revert s. induction fuel as [|n IH]; intros s Hl.
  - destruct s; [|simpl in Hl; lia]. split; [done | by exists 0%nat].
  - simpl. destruct (utf8.DecodeRuneInString s) as [r size] eqn:Hd.
    destruct (unicode.IsSpace r) eqn:Hsp.
    + destruct s as [|b s]; [by vm_compute in Hd; inversion Hd; subst|].
      pose proof (DecodeRune_size (b :: s) ltac:(done)) as Hsz.
      rewrite Hd in Hsz. simpl in Hsz.
      destruct (IH (drop size (b :: s))) as [Hn [k Hk]].
      { rewrite length_drop. simpl in *. lia. }
      split; [done|]. exists (size + k)%nat. by rewrite Hk, drop_drop.
    + split; [by unfold noLeadingSpace; rewrite Hd | by exists 0%nat].
Qed.

Lemma trimRightLoop_spec (fuel : nat) (s : bytes) :
  (length s ≤ fuel)%nat →
  noTrailingSpace (trimRightLoop fuel s) ∧
  ∃ k, trimRightLoop fuel s = take k s.
Proof.
  revert s. induction fuel as [|n IH]; intros s Hl.
  - destruct s; [|simpl in Hl; lia]. split; [done | by exists 0%nat].
  - simpl. destruct (utf8.DecodeLastRuneInString s) as [r size] eqn:Hd.
    destruct (unicode.IsSpace r) eqn:Hsp.
    + destruct s as [|b s]; [by vm_compute in Hd; inversion Hd; subst|].
      pose proof (DecodeLastRune_size (b :: s) ltac:(done)) as Hsz.
      rewrite Hd in Hsz. simpl in Hsz.
      destruct (IH (take (length (b :: s) - size) (b :: s))) as [Hn [k Hk]].
      { rewrite length_take. simpl in *. lia. }
      split; [done|]. exists (k `min` (length (b :: s) - size))%nat.
      by rewrite Hk, take_take.
    + split; [by unfold noTrailingSpace; rewrite Hd|].
      exists (length s). by rewrite take_ge.
Qed.

(** The loops leave alone a string that has no white space at the end
    they work on. *)
Lemma trimLeftLoop_fixed (fuel : nat) (s : bytes) :
  noLeadingSpace s → trimLeftLoop fuel s = s.
Proof.
  unfold noLeadingSpace. destruct fuel; simpl; [done|].
  destruct (utf8.DecodeRuneInString s) as [r size]. simpl. by intros ->.
Qed.

Lemma trimRightLoop_fixed (fuel : nat) (s : bytes) :
  noTrailingSpace s → trimRightLoop fuel s = s.
Proof.
  unfold noTrailingSpace. destruct fuel; simpl; [done|].
  destruct (utf8.DecodeLastRuneInString s) as [r size]. simpl. by intros ->.
Qed.

(** Cutting white space off the end cannot uncover white space at the
    front. *)
Lemma noLeadingSpace_take (k : nat) (s : bytes) :
  noLeadingSpace s → noLeadingSpace (take k s).
Proof.
  unfold noLeadingSpace. intros Hs.
  destruct (utf8.DecodeRuneInString (take k s)) as [r size] eqn:Hd. simpl.
  destruct (unicode.IsSpace r) eqn:Hsp; [|done].
  apply (DecodeRune_app _ (drop k s)) in Hd; [|by apply IsSpace_valid].
  rewrite take_drop in Hd. rewrite Hd in Hs. simpl in Hs. congruence.
Qed.

Lemma TrimSpaceBytes_spec (s : bytes) :
  noLeadingSpace (TrimSpaceBytes s) ∧ noTrailingSpace (TrimSpaceBytes s) ∧
  ∃ l r, s = (l ++ TrimSpaceBytes s ++ r)%list.
Proof.
  unfold TrimSpaceBytes, TrimLeftSpace, TrimRightSpace.
  destruct (trimLeftLoop_spec (length s) s) as [HL [i Hi]]; [done|].
  set (t := trimLeftLoop (length s) s) in *.
  destruct (trimRightLoop_spec (length t) t) as [HR [j Hj]]; [done|].
  split; [|split; [done|]].
  - rewrite Hj. by apply noLeadingSpace_take.
  - exists (take i s), (drop j t).
    by rewrite Hj, take_drop, Hi, take_drop.
Qed.

(** Trimming a trimmed string changes nothing. *)
Lemma TrimSpaceBytes_idem (s : bytes) :
  TrimSpaceBytes (TrimSpaceBytes s) = TrimSpaceBytes s.
Proof.
  destruct (TrimSpaceBytes_spec s) as (HL & HR & _).
  set (t := TrimSpaceBytes s) in *.
  unfold TrimSpaceBytes at 1, TrimLeftSpace, TrimRightSpace.
  rewrite (trimLeftLoop_fixed _ t HL). by apply trimRightLoop_fixed.
Qed.

Lemma strings_TrimSpace_idem (s : string) : TrimSpace (TrimSpace s) = TrimSpace s.
Proof.
  unfold TrimSpace.
  by rewrite list_byte_of_string_of_list_byte, TrimSpaceBytes_idem.
Qed.

(** A string made of white space only is trimmed to nothing. *)
Lemma allSpaceLoop_trimLeft (n fuel : nat) (s : bytes) :
  allSpaceLoop n s = true → (length s ≤ fuel)%nat → trimLeftLoop fuel s = [].
Proof.
  revert fuel s. induction n as [|n IH]; intros fuel s Hall Hl.
  - destruct s; [|done]. by destruct fuel.
  - destruct s as [|b s]; [by destruct fuel|].
    destruct fuel as [|fuel]; [simpl in Hl; lia|].
    simpl in Hall |- *.
    pose proof (DecodeRune_size (b :: s) ltac:(done)) as Hsz.
    destruct (utf8.DecodeRuneInString (b :: s)) as [r size].
    apply andb_true_iff in Hall as [-> Hall]. simpl in Hsz.
    apply IH; [done|]. rewrite length_drop. simpl in *. lia.
Qed.

Lemma onlySpace_TrimSpace (s : string) :
  onlySpace s = true → TrimSpace s = "".
Proof.
  unfold onlySpace, allSpace, TrimSpace, TrimSpaceBytes, TrimLeftSpace.
  intros H.
  by rewrite (allSpaceLoop_trimLeft _ _ _ H).
Qed.

(** The width of a rune never exceeds the string. *)
Lemma DecodeRune_fits (s : bytes) :
  ((utf8.DecodeRuneInString s).2 ≤ length s)%nat.
Proof.
  unfold utf8.DecodeRuneInString.
  destruct (Nat.ltb_spec (length s) 1) as [Hl|Hl]; [simpl; lia|].
  destruct (utf8.first (byteAt s 0)) as [[[sz lo] hi]|] eqn:Hf; [|done].
  apply first_size in Hf.
  destruct (Nat.eqb_spec sz 1); [done|].
  destruct (Nat.ltb_spec (length s) sz); [done|].
  destruct (Nat.leb_spec sz 2), (Nat.leb_spec sz 3);
    repeat match goal with
           | |- context [if ?c then _ else _] => destruct c
           end; simpl; lia.
Qed.

(** A rune decoded without error from a string is decoded the same from
    any prefix that holds all its bytes. *)
Lemma DecodeRune_prefix (p x : bytes) (r : utf8.rune) (k : nat) :
  utf8.DecodeRuneInString (p ++ x) = (r, k) → r ≠ utf8.RuneError →
  (k ≤ length p)%nat → utf8.DecodeRuneInString p = (r, k).
Proof.
  intros H Hr Hk.
  destruct (utf8.DecodeRuneInString p) as [r' k'] eqn:Hp.
  destruct (decide (r' = utf8.RuneError)) as [->|Hr'].
  - exfalso. revert H Hp. unfold utf8.DecodeRuneInString. rewrite length_app.
    destruct (Nat.ltb_spec (length p) 1) as [Hl|Hl].
    { destruct p; [|simpl in Hl; lia]. simpl in Hk.
      assert (k = 0)%nat as -> by lia. intros H _.
      pose proof (DecodeRune_size x) as Hs. unfold utf8.DecodeRuneInString in Hs.
      simpl in H. rewrite H in Hs. simpl in Hs.
      destruct x; [by inversion H; subst|]. specialize (Hs ltac:(done)). lia. }
    destruct (Nat.ltb_spec (length p + length x) 1); [lia|].
    rewrite byteAt_app by lia.
    destruct (utf8.first (byteAt p 0)) as [[[sz lo] hi]|] eqn:Hf;
      [|by intros [= <- <-]].
    apply first_size in Hf.
    destruct (Nat.eqb_spec sz 1); [congruence|].
    destruct (Nat.ltb_spec (length p + length x) sz); [by intros [= <- <-]|].
    destruct (Nat.ltb_spec (length p) sz) as [Hn|Hn].
    + destruct (Nat.leb_spec sz 2), (Nat.leb_spec sz 3);
        repeat match goal with
               | |- context [if ?c then _ else _] => destruct c
               end; intros [= <- <-]; try done; lia.
    + destruct (Nat.leb_spec sz 2), (Nat.leb_spec sz 3);
        rewrite ?byteAt_app by lia; congruence.
  - apply (DecodeRune_app _ x) in Hp; [|done]. congruence.
Qed.

Lemma allSpaceLoop_more (n m : nat) (s : bytes) :
  allSpaceLoop n s = true → (n ≤ m)%nat → allSpaceLoop m s = true.
Proof.
  revert m s. induction n as [|n IH]; intros m s H Hm.
  - destruct s; [by destruct m | done].
  - destruct m as [|m]; [lia|]. destruct s as [|b s]; [done|].
    simpl in *. destruct (utf8.DecodeRuneInString (b :: s)) as [r size].
    apply andb_true_iff in H as [-> H]. apply IH; [done | lia].
Qed.

Lemma allSpaceLoop_enough (n : nat) (s : bytes) :
  allSpaceLoop n s = true → allSpace s = true.
Proof.
  unfold allSpace. revert s. induction n as [|n IH]; intros s H.
  - by destruct s.
  - destruct s as [|b s]; [done|]. simpl in *.
    pose proof (DecodeRune_size (b :: s) ltac:(done)) as Hsz.
    destruct (utf8.DecodeRuneInString (b :: s)) as [r size].
    apply andb_true_iff in H as [-> H]. simpl in *.
    apply (allSpaceLoop_more (length (drop size (b :: s)))); [by apply IH|].
    rewrite length_drop. simpl. lia.
Qed.

(** White space followed by white space is white space. *)
Lemma allSpace_app (x y : bytes) :
  allSpace x = true → allSpace y = true → allSpace (x ++ y) = true.
Proof.
  unfold allSpace at 1. generalize (length x) at 1. intros n.
  revert x. induction n as [|n IH]; intros x Hx Hy.
  - by destruct x.
  - destruct x as [|b x]; [done|].
    apply (allSpaceLoop_enough (S (length (x ++ y)))).
    cbn [allSpaceLoop app] in Hx |- *.
    pose proof (DecodeRune_fits (b :: x)) as Hfit.
    pose proof (DecodeRune_size (b :: x) ltac:(done)) as Hsz.
    destruct (utf8.DecodeRuneInString (b :: x)) as [r size] eqn:Hd.
    apply andb_true_iff in Hx as [Hr Hx].
    change (b :: x ++ y)%list with ((b :: x) ++ y)%list.
    rewrite (DecodeRune_app (b :: x) y r size Hd (IsSpace_valid _ Hr)).
    rewrite Hr. cbn [snd andb] in Hfit, Hsz |- *.
    rewrite drop_app_le by done.
    apply (allSpaceLoop_more (length (drop size (b :: x) ++ y)));
      [by apply IH|].
    rewrite length_app, length_drop, length_app. simpl. lia.
Qed.

(** One white-space rune is white space. *)
Lemma allSpace_rune (s : bytes) (r : utf8.rune) :
  utf8.DecodeRuneInString s = (r, length s) → unicode.IsSpace r = true →
  allSpace s = true.
Proof.
  intros Hd Hr. unfold allSpace. destruct s as [|b s]; [done|].
  cbn [allSpaceLoop length]. rewrite Hd, Hr, drop_all.
  by destruct (length s).
Qed.

(** What the left loop drops is white space. *)
Lemma trimLeftLoop_dropped (fuel : nat) (s : bytes) :
  ∃ k, trimLeftLoop fuel s = drop k s ∧ allSpace (take k s) = true.
Proof.
  revert s. induction fuel as [|n IH]; intros s; [by exists 0%nat|].
  simpl. destruct (utf8.DecodeRuneInString s) as [r size] eqn:Hd.
  destruct (unicode.IsSpace r) eqn:Hsp; [|by exists 0%nat].
  destruct (IH (drop size s)) as (k & Hk & Hall).
  pose proof (DecodeRune_fits s) as Hfit. rewrite Hd in Hfit. simpl in Hfit.
  exists (size + k)%nat. split; [by rewrite Hk, drop_drop|].
  rewrite <- (take_drop size s) at 1.
  rewrite take_app_ge by (rewrite length_take; lia).
  rewrite length_take, Nat.min_l by done.
  replace (size + k - size)%nat with k by lia.
  apply allSpace_app; [|done].
  apply (allSpace_rune _ r); [|done].
  rewrite length_take, Nat.min_l by done.
  apply (DecodeRune_prefix _ (drop size s)); [by rewrite take_drop| |].
  - by apply IsSpace_valid.
  - by rewrite length_take, Nat.min_l.
Qed.

Lemma nth_drop {A} (k i : nat) (s : list A) (d : A) :
  nth i (drop k s) d = nth (k + i) s d.
Proof.
  revert s. induction k as [|k IH]; intros [|b s]; simpl; try done.
  by destruct i.
Qed.

Lemma drop_take_drop {A} (k m : nat) (s : list A) :
  (k ≤ m)%nat → (drop k (take m s) ++ drop m s)%list = drop k s.
Proof.
  revert k m. induction s as [|b s IH]; intros k m H.
  - by rewrite take_nil, !drop_nil.
  - destruct m as [|m]; [by assert (k = 0)%nat as -> by lia|].
    destruct k as [|k]; simpl; [by rewrite take_drop | apply IH; lia].
Qed.

(** A white-space rune found at the end of a string is one decoded from
    its last bytes. *)
Lemma DecodeLastRune_space (s : bytes) (r : utf8.rune) (size : nat) :
  utf8.DecodeLastRuneInString s = (r, size) → unicode.IsSpace r = true →
  utf8.DecodeRuneInString (drop (length s - size) s) = (r, size) ∧
  (1 ≤ size ≤ length s)%nat.
Proof.
  intros Hd Hr.
  assert (s ≠ []) as Hs by (by intros ->; vm_compute in Hd; inversion Hd; subst).
  pose proof (DecodeLastRune_size s Hs) as Hsz. rewrite Hd in Hsz.
  split; [|exact Hsz]. revert Hd. unfold utf8.DecodeLastRuneInString.
  assert (0 < length s)%nat by (destruct s; [done | simpl; lia]).
  destruct (Z.eqb_spec (Z.of_nat (length s)) 0); [lia|].
  replace (Z.to_nat (Z.of_nat (length s) - 1)) with (length s - 1)%nat by lia.
  destruct (N.ltb_spec (byteAt s (length s - 1)) utf8.RuneSelf) as [Hlt|Hge].
  - intros [= <- <-]. unfold utf8.DecodeRuneInString.
    rewrite length_drop.
    destruct (Nat.ltb_spec (length s - (length s - 1)) 1); [lia|].
    assert (byteAt (drop (length s - 1) s) 0 = byteAt s (length s - 1)) as ->.
    { unfold byteAt. by rewrite nth_drop, Nat.add_0_r. }
    unfold utf8.first. unfold utf8.RuneSelf in Hlt.
    by destruct (N.ltb_spec (byteAt s (length s - 1)) 128); [|lia].
  - cbv zeta.
    match goal with
    | |- context [utf8.seekStart s ?b ?l ?n] => set (st := utf8.seekStart s b l n)
    end.
    set (start := (if (st <? 0)%Z then 0%Z else st)).
    destruct (utf8.DecodeRuneInString (drop (Z.to_nat start) s)) as [r' size']
      eqn:Hdec.
    destruct (Z.eqb_spec (start + Z.of_nat size') (Z.of_nat (length s)))
      as [E|E]; cbn [negb].
    + intros [= <- <-]. rewrite <- Hdec. f_equal. f_equal.
      subst start. destruct (Z.ltb_spec st 0); lia.
    + intros [= <- <-]. by rewrite IsSpace_RuneError in Hr.
Qed.

(** What the right loop drops is white space. *)
Lemma trimRightLoop_dropped (fuel : nat) (s : bytes) :
  ∃ k, trimRightLoop fuel s = take k s ∧ allSpace (drop k s) = true.
Proof.
  revert s. induction fuel as [|n IH]; intros s.
  { exists (length s). by rewrite take_ge, drop_all. }
  simpl. destruct (utf8.DecodeLastRuneInString s) as [r size] eqn:Hd.
  destruct (unicode.IsSpace r) eqn:Hsp;
    [|by exists (length s); rewrite take_ge, drop_all].
  destruct (DecodeLastRune_space s r size Hd Hsp) as [Hdec Hsz].
  destruct (IH (take (length s - size) s)) as (k & Hk & Hall).
  exists (k `min` (length s - size))%nat. split; [by rewrite Hk, take_take|].
  destruct (Nat.le_gt_cases k (length s - size)) as [Hle|Hgt].
  - rewrite Nat.min_l by done.
    rewrite <- (drop_take_drop k (length s - size) s Hle).
    apply allSpace_app; [done|]. apply (allSpace_rune _ r); [|done].
    rewrite length_drop. by replace (length s - (length s - size))%nat
      with size by lia.
  - rewrite Nat.min_r by lia. apply (allSpace_rune _ r); [|done].
    rewrite length_drop. by replace (length s - (length s - size))%nat
      with size by lia.
Qed.

(** [TrimSpace] cuts a string in three: white space, the result, white
    space; and the result neither starts nor ends with white space. *)
Lemma TrimSpaceBytes_cut (s : bytes) :
  ∃ l t, s = (l ++ TrimSpaceBytes s ++ t)%list ∧
         allSpace l = true ∧ allSpace t = true ∧
         noLeadingSpace (TrimSpaceBytes s) ∧ noTrailingSpace (TrimSpaceBytes s).
Proof.
  destruct (TrimSpaceBytes_spec s) as (HL & HR & _).
  unfold TrimSpaceBytes, TrimLeftSpace, TrimRightSpace in *.
  destruct (trimLeftLoop_dropped (length s) s) as (i & Hi & Hli).
  set (m := trimLeftLoop (length s) s) in *.
  destruct (trimRightLoop_dropped (length m) m) as (j & Hj & Htj).
  exists (take i s), (drop j m). repeat split; try done.
  by rewrite Hj, take_drop, Hi, take_drop.
Qed.

End Trimming.

(** ** Paths and temporary names *)

Section Paths.

Lemma length_append (s t : string) :
  String.length (s ++ t) = (String.length s + String.length t)%nat.
Proof. induction s as [|c s IH]; simpl; [done | by rewrite IH]. Qed.

(** [Split] cuts the path in two: nothing is lost. *)
Lemma Split_append (path : string) :
  (filepath.Split path).1 ++ (filepath.Split path).2 = path.
Proof.
  induction path as [|c rest IH]; simpl; [done|].
  destruct (filepath.Split rest) as [dir file]. simpl in IH.
  destruct dir as [|d dir]; simpl in *.
  - destruct (Ascii.eqb c "/"); simpl; by rewrite <- IH.
  - by rewrite <- IH.
Qed.

Lemma digits_length (n : nat) (x : N) : String.length (ioutil.digits n x) = n.
Proof.
  revert x. induction n as [|n IH]; intros x; simpl; [done|].
  rewrite length_append, IH. simpl. lia.
Qed.

Lemma lastStar_length (pattern prefix suffix : string) :
  ioutil.lastStar pattern = Some (prefix, suffix) →
  String.length pattern = S (String.length prefix + String.length suffix).
Proof.
  revert prefix suffix.
  induction pattern as [|c rest IH]; intros prefix suffix; simpl; [done|].
  destruct (ioutil.lastStar rest) as [[p q]|].
  - intros [= <- <-]. simpl. by rewrite (IH p q).
  - destruct (Ascii.eqb c "*"); [|done]. by intros [= <- <-].
Qed.

Lemma prefixAndSuffix_length (pattern : string) :
  (String.length pattern ≤
   S (String.length (ioutil.prefixAndSuffix pattern).1 +
      String.length (ioutil.prefixAndSuffix pattern).2))%nat.
Proof.
  unfold ioutil.prefixAndSuffix.
  destruct (ioutil.lastStar pattern) as [[p q]|] eqn:H; simpl; [|lia].
  apply lastStar_length in H. lia.
Qed.

Lemma Join_length (dir name : string) :
  (String.length dir + String.length name ≤
   String.length (filepath.Join dir name))%nat.
Proof.
  unfold filepath.Join. destruct (filepath.endsWithSeparator dir);
    rewrite !length_append; simpl; lia.
Qed.

(** The temporary file is never the destination itself: its name is
    longer. *)
Lemma tempName_fresh (filename tmp : string) :
  tempName (tempDir filename) (baseName filename) tmp → tmp ≠ filename.
Proof.
  intros (rnd & Hlen & ->) Heq.
  apply (f_equal String.length) in Heq.
  pose proof (Join_length (tempDir filename)
    ((ioutil.prefixAndSuffix (baseName filename)).1 ++ rnd ++
     (ioutil.prefixAndSuffix (baseName filename)).2)) as HJ.
  rewrite Heq, !length_append, Hlen in HJ.
  pose proof (prefixAndSuffix_length (baseName filename)) as HP.
  assert (String.length filename =
          String.length (filepath.Split filename).1 +
          String.length (baseName filename))%nat as HS.
  { unfold baseName. by rewrite <- length_append, Split_append. }
  revert HJ. unfold tempDir.
  destruct (String.eqb_spec (filepath.Split filename).1 "") as [E|_].
  - rewrite E in HS. simpl. simpl in HS. lia.
  - lia.
Qed.

End Paths.

(** ** Running the library calls *)

Ltac run :=
  cbv beta iota zeta delta
      [bind ret get modify never defer decision emit returning
       set_files set_fds set_rand set_faults set_mu record
       os.Remove os.Open os.Write os.readAll os.Sync os.Close io.Copy
       ioutil.nextRandom atomic.ReplaceFile
       sync.Lock sync.Unlock sync.RLock sync.RUnlock bytes_.NewReader];
  cbn [files fds rand faults mu history fst snd
       remaining failure Fd Name writer readers
       fmap option_fmap option_map].

Section Library.

Lemma tempLoop_run (tries : nat) (dir pattern last : string) (w : World) :
  ∃ r w',
    ioutil.tempLoop tries dir (ioutil.prefixAndSuffix pattern).1
                    (ioutil.prefixAndSuffix pattern).2 last w = Some (r, w') ∧
    history w' = history w ∧ created dir pattern w w' r.
Proof.
  revert last w. induction tries as [|n IH]; intros last w.
  - eexists _, _. split; [reflexivity|]. by repeat split.
  - cbn [ioutil.tempLoop]. run.
    set (r := ((rand w * 1664525 + 1013904223) mod 2 ^ 32)%N).
    set (name := filepath.Join _ _).
    destruct (files w !! name) eqn:Hname.
    + destruct (IH name (set_rand r w)) as (res & w' & Hrun & Hh & Hc).
      eexists _, _. split; [exact Hrun|]. split; [done|].
      destruct Hc as [Hmu Hc]. split; [done|]. exact Hc.
    + run. destruct (hd None (faults w)) as [flt|]; run.
      * eexists _, _. split; [reflexivity|]. by repeat split.
      * eexists _, _. split; [reflexivity|]. split; [done|]. split; [done|].
        run. repeat split; try done.
        -- eexists. split; [|reflexivity]. apply digits_length.
        -- apply is_fresh.
Qed.

Lemma TempFile_run (dir pattern : string) (w : World) :
  ∃ r w',
    ioutil.TempFile dir pattern w = Some (r, w') ∧
    history w' = (history w ++ [(CTempFile dir pattern, r.2)])%list ∧
    created dir pattern w w' r.
Proof.
  unfold ioutil.TempFile. generalize (N.to_nat 10000). intros tries.
  destruct (tempLoop_run tries dir pattern "" w)
    as ([f err] & w' & Hrun & Hh & Hc).
  destruct (ioutil.prefixAndSuffix pattern) as [prefix suffix].
  cbn [fst snd] in Hrun. unfold bind at 1. rewrite Hrun. run.
  eexists _, _. split; [reflexivity|]. run. rewrite Hh.
  split; [done|]. exact Hc.
Qed.

End Library.

Section Writing.

Variable wrap : Stage → error → error.
Variable block : bool.
Variable filename : string.
Variable value : ReadSeeker.

Lemma writeProtocol_run (w : World) :
  match writeProtocol wrap block filename value w with
  | Some (err, w') =>
    ∃ tmp evs,
      (block = true → err = None → sync.free (mu w) = true) ∧
      history w' = (history w ++ evs)%list ∧ mu w' = mu w ∧ fds w' = fds w ∧
      tempName (tempDir filename) (baseName filename) tmp ∧
      protocolRun wrap block filename value tmp err evs ∧
      writeEffect filename value tmp err w w'
  | None => block = true ∧ sync.free (mu w) = false
  end.
Proof.
  unfold writeProtocol.
  pose proof (TempFile_run (tempDir filename) (baseName filename) w)
    as (r & w1 & Hrun & Hh & Hmu & Hc).
  unfold tempDir, baseName in Hrun.
  destruct (filepath.Split filename) as [dir file] eqn:HS.
  cbn [fst snd] in Hrun. unfold bind at 1. rewrite Hrun.
  destruct r as [[f|] [e|]]; try done.
  - destruct Hc as (Htmp & Hnone & Hfiles & Hfd & Hfds).
    pose proof (tempName_fresh _ _ Htmp) as Hne.
    destruct f as [fd tmp]. cbn [Fd Name snd] in *.
    destruct w1 as [F1 D1 R1 L1 M1 H1]. cbn [files fds mu history] in *.
    subst F1 D1 M1 H1.
    assert (bool_decide (fd ∈ {[fd]} ∪ fds w) = true) as Hin
      by (apply bool_decide_eq_true_2; set_solver).
    assert (bool_decide (fd ∈ ({[fd]} ∪ fds w) ∖ {[fd]}) = false) as Hout
      by (apply bool_decide_eq_false_2; set_solver).
    repeat (run;
      first
        [ rewrite Hin | rewrite Hout
        | rewrite lookup_alter_eq | rewrite lookup_insert_eq
        | rewrite (lookup_insert_ne _ filename tmp) by done
        | rewrite lookup_delete_eq
        | match goal with
          | |- context [match hd None ?l with _ => _ end] =>
            destruct (hd None l) as [?flt|]
          | |- context [match failure value with _ => _ end] =>
            destruct (failure value) as [?e|] eqn:?Hfail
          | |- context [if block then _ else _] => destruct block
          | |- context [if sync.free ?m then _ else _] =>
            destruct (sync.free m) eqn:?Hfree
          end ]).
    all: run.
    all: try (split; reflexivity).
    all: exists tmp; eexists.
    all: split; [intros; first [assumption | discriminate | reflexivity]|].
    all: split; [rewrite <- ?app_assoc; reflexivity|].
    all: split;
      [ try reflexivity;
        destruct (mu w) as [[] [|?]]; try discriminate; reflexivity |].
    all: split; [set_solver|].
    all: split; [exact Htmp|].
    all: split; [econstructor; eauto|].
    all: cbn [writeEffect files].
    all: try (intros p Hp;
              rewrite ?(lookup_insert_ne _ filename) by done;
              rewrite ?lookup_delete_ne, ?lookup_alter_ne, ?lookup_insert_ne
                by (by apply not_eq_sym); reflexivity).
    all: apply map_eq; intros p.
    all: destruct (decide (p = filename)) as [->|Hp];
      [by rewrite !lookup_insert_eq | rewrite !lookup_insert_ne by done].
    all: destruct (decide (p = tmp)) as [->|Hq];
      [by rewrite lookup_delete_eq, Hnone|].
    all: by rewrite lookup_delete_ne, lookup_alter_ne, lookup_insert_ne.
  - eexists (filepath.Join _ (_ ++ ioutil.digits 9 0 ++ _)), _.
    destruct Hc as [Hf Hd]. run.
    split; [done|]. split; [exact Hh|]. split; [done|]. split; [done|].
    split; [eexists; split; [|reflexivity]; apply digits_length|].
    split; [constructor|]. intros p _. by rewrite Hf.
Qed.

End Writing.

(** ** Running the methods of the store *)

Section Methods.

Variable a : storage.FileSystemBase.
Variable name : storage.FSName.

(** [setFile] and [atomic.WriteFile] are the two instances of the
    protocol. *)
Lemma setFile_protocol (value : ReadSeeker) (block : bool) :
  storage.setFile a name value block =
  writeProtocol withStage block (storage.resolvePath a name) value.
Proof. reflexivity. Qed.

Lemma WriteFile_protocol (filename : string) (r : ReadSeeker) :
  atomic.WriteFile filename r = writeProtocol atomicStage false filename r.
Proof. reflexivity. Qed.

Lemma free_unlocked (m : RWMutex) :
  sync.free m = true → m = {| writer := false; readers := 0 |}.
Proof. destruct m as [[] [|n]]; by cbv. Qed.

Lemma SetString_run (value : string) (w : World) :
  let filename := storage.resolvePath a name in
  let reader :=
    bytes_.NewReader (list_byte_of_string (strings.TrimSpace value)) in
  match storage.SetString a name value w with
  | Some (err, w') =>
    sync.free (mu w) = true ∧
    ∃ tmp mid,
      history w' =
        (history w ++ [(CLock, None)] ++ mid ++ [(CUnlock, None)])%list ∧
      mu w' = mu w ∧ fds w' = fds w ∧
      tempName (tempDir filename) (baseName filename) tmp ∧
      protocolRun atomicStage false filename reader tmp err mid ∧
      writeEffect filename reader tmp err w w'
  | None => sync.free (mu w) = false
  end.
Proof.
  intros filename reader.
  unfold storage.SetString, storage.setString. fold filename. fold reader.
  rewrite WriteFile_protocol. run.
  destruct (sync.free (mu w)) eqn:Hfree; [|done]. run.
  set (wl := {| files := files w; mu := _ |}).
  pose proof (writeProtocol_run atomicStage false filename reader wl) as H.
  destruct (writeProtocol _ _ _ _ wl) as [[err w1]|]; [|by destruct H].
  destruct H as (tmp & mid & _ & Hh & Hmu & Hfds & Htmp & Hrun & Heff).
  run. rewrite Hmu. subst wl. run. cbn [history files fds mu] in *.
  split; [done|]. exists tmp, mid.
  split; [by rewrite Hh, <- !app_assoc|].
  split; [by rewrite (free_unlocked _ Hfree)|].
  split; [done|]. split; [done|]. split; [done|].
  destruct err; exact Heff.
Qed.

Lemma SetFile_run (value : ReadSeeker) (block : bool) (w : World) :
  let filename := storage.resolvePath a name in
  match storage.setFile a name value block w with
  | Some (err, w') =>
    ∃ tmp evs,
      (block = true → err = None → sync.free (mu w) = true) ∧
      history w' = (history w ++ evs)%list ∧ mu w' = mu w ∧ fds w' = fds w ∧
      tempName (tempDir filename) (baseName filename) tmp ∧
      protocolRun withStage block filename value tmp err evs ∧
      writeEffect filename value tmp err w w'
  | None => block = true ∧ sync.free (mu w) = false
  end.
Proof. intros filename. rewrite setFile_protocol. apply writeProtocol_run. Qed.

(** [GetString], decision by decision. *)
Lemma GetString_run (w : World) :
  let path := storage.resolvePath a name in
  match storage.GetString a name w with
  | Some ((v, err), w') =>
    writer (mu w) = false ∧
    files w' = files w ∧ mu w' = mu w ∧ fds w' = fds w ∧
    ∃ evs, history w' = (history w ++ evs)%list ∧
    match files w !! path with
    | None =>
      v = "" ∧ err = Some (PathError "open" path ENOENT) ∧
      evs = [(CRLock, None); (COpen path, err); (CRUnlock, None)]
    | Some data =>
      match hd None (faults w) with
      | Some flt =>
        v = "" ∧ err = Some (PathError "open" path (EFault (errno flt))) ∧
        evs = [(CRLock, None); (COpen path, err); (CRUnlock, None)]
      | None =>
        ∃ c,
        evs = [(CRLock, None); (COpen path, None); (CRead path, err);
               (CClose path, c); (CRUnlock, None)] ∧
        match hd None (tail (faults w)) with
        | Some flt =>
          v = "" ∧ err = Some (PathError "read" path (EFault (errno flt)))
        | None =>
          v = strings.TrimSpace (string_of_list_byte data) ∧ err = None
        end
      end
    end
  | None => writer (mu w) = true
  end.
Proof.
  intros path.
  unfold storage.GetString, storage.getString, ioutil.ReadFile. fold path.
  assert (∀ m, writer m = false →
               {| writer := false; readers := readers m |} = m) as Hmu
    by (by intros [[] n]).
  assert (bool_decide (fresh (fds w) ∈ {[fresh (fds w)]} ∪ fds w) = true)
    as Hin by (apply bool_decide_eq_true_2; set_solver).
  assert (({[fresh (fds w)]} ∪ fds w) ∖ {[fresh (fds w)]} = fds w) as Hfds.
  { pose proof (is_fresh (fds w)). set_solver. }
  run. destruct (writer (mu w)) eqn:Hw; [done|]. run.
  destruct (files w !! path) as [data|] eqn:Hdata; run.
  - destruct (hd None (faults w)) as [flt|]; run.
    + rewrite (Hmu _ Hw). repeat split; try done.
      eexists. split; [by rewrite <- !app_assoc|done].
    + rewrite Hin. run.
      destruct (hd None (tail (faults w))) as [flt|]; run;
        rewrite Hin; run;
        destruct (hd None (tail (tail (faults w)))); run;
        rewrite ?Hdata, (Hmu _ Hw), Hfds; repeat split; try done;
        (eexists; split; [by rewrite <- !app_assoc|]);
        by eexists.
  - rewrite (Hmu _ Hw). repeat split; try done.
    eexists. split; [by rewrite <- !app_assoc|done].
Qed.

Lemma GetFile_run (w : World) :
  let path := storage.resolvePath a name in
  match storage.GetFile a name w with
  | Some ((h, err), w') =>
    writer (mu w) = false ∧ files w' = files w ∧ mu w' = mu w ∧
    match files w !! path with
    | None => h = None ∧ err = Some (PathError "open" path ENOENT)
    | Some data =>
      match hd None (faults w) with
      | Some flt =>
        h = None ∧ err = Some (PathError "open" path (EFault (errno flt)))
      | None =>
        err = None ∧ ∃ f, h = Some {| handle := f; contents := data |} ∧
                          Name f = path ∧ fds w' = {[Fd f]} ∪ fds w
      end
    end
  | None => writer (mu w) = true
  end.
Proof.
  intros path. unfold storage.GetFile, storage.getFile. fold path.
  assert (∀ m, writer m = false →
               {| writer := false; readers := readers m |} = m) as Hmu
    by (by intros [[] n]).
  run. destruct (writer (mu w)) eqn:Hw; [done|]. run.
  destruct (files w !! path) as [data|] eqn:Hdata; run.
  - destruct (hd None (faults w)) as [flt|]; run; rewrite (Hmu _ Hw).
    + done.
    + rewrite Hdata. repeat split; try done. by eexists.
  - by rewrite (Hmu _ Hw).
Qed.

Lemma RemoveFile_run (w : World) :
  let path := storage.resolvePath a name in
  match storage.RemoveFile a name w with
  | Some (err, w') =>
    sync.free (mu w) = true ∧ mu w' = mu w ∧ fds w' = fds w ∧
    match files w !! path with
    | None =>
      err = Some (PathError "remove" path ENOENT) ∧ files w' = files w
    | Some _ =>
      match hd None (faults w) with
      | Some flt =>
        err = Some (PathError "remove" path (EFault (errno flt))) ∧
        files w' = files w
      | None => err = None ∧ files w' = delete path (files w)
      end
    end
  | None => sync.free (mu w) = false
  end.
Proof.
  intros path. unfold storage.RemoveFile, storage.removeFile. fold path.
  run. destruct (sync.free (mu w)) eqn:Hfree; [|done]. run.
  rewrite (free_unlocked _ Hfree).
  destruct (files w !! path) as [data|]; run;
    [destruct (hd None (faults w)) as [flt|]; run|]; done.
Qed.

End Methods.

(** ** The lock along a list of events *)

Section Events.

Lemma everyCall_spec (P : bool → Call → bool) (evs : list Event) (held : bool) :
  everyCall P held evs = true →
  ∀ pre c r post, evs = (pre ++ (c, r) :: post)%list →
    P (fold_left lockStep pre held) c = true.
Proof.
  revert held. induction evs as [|ev rest IH]; intros held H pre c r post E.
  - by destruct pre.
  - simpl in H. apply andb_true_iff in H as [Hev Hrest].
    destruct pre as [|p pre]; simpl in E; injection E as -> ->.
    + exact Hev.
    + simpl. by eapply IH.
Qed.

Lemma preparedUnlocked_check (evs : list Event) :
  everyCall (λ held c, negb (preparation c && held)) false evs = true →
  preparedUnlocked evs.
Proof.
  intros H pre c r post E Hc.
  pose proof (everyCall_spec _ _ _ H pre c r post E) as Hp.
  simpl in Hp. rewrite Hc in Hp. unfold holdsLock.
  by destruct (fold_left lockStep pre false).
Qed.

Lemma replacedLocked_check (evs : list Event) :
  everyCall (λ held c, implb (isRename c) held) false evs = true →
  replacedLocked evs.
Proof.
  intros H pre c r post E Hc.
  pose proof (everyCall_spec _ _ _ H pre c r post E) as Hp.
  simpl in Hp. by rewrite Hc in Hp.
Qed.

Lemma lockedForReplace_check (evs : list Event) :
  renameAfterLock evs = true → lockedForReplace evs.
Proof.
  induction evs as [|ev rest IH]; intros H pre r post E.
  - by destruct pre.
  - destruct pre as [|p pre]; simpl in E; injection E as -> ->.
    + simpl in H. destruct post as [|[[] r'] post']; try done. by eexists _, _, _, _.
    + eapply IH; [|reflexivity].
      simpl in H. destruct p as [[] rp]; try done.
      destruct (pre ++ (CLock, r) :: post)%list as [|[[] r'] l]; done.
Qed.

End Events.

(** * The claims *)

Section Claims.

Variable a : storage.FileSystemBase.
Variable name : storage.FSName.

Let path := storage.resolvePath a name.

(** C1. A write, [SetString] or [SetFile], that returns an error
    leaves the content stored at the resolved path exactly as it was
    before the call: whatever failed, no replace of the destination
    succeeded during the call. *)
Theorem failed_write_keeps_destination
    (c : WriteCall) (w w' : World) (e : error) :
  write a name c w = Some (Some e, w') →
  files w' !! storage.resolvePath a name = files w !! storage.resolvePath a name ∧
  ∃ evs, history w' = (history w ++ evs)%list ∧
         ∀ source destination, ¬ In (CRename source destination, None) evs.
Proof.
  intros H. destruct c as [v|value]; cbn [write] in H.
  - pose proof (SetString_run a name v w) as R. cbv zeta in R.
    rewrite H in R.
    destruct R as (_ & tmp & mid & Hh & _ & _ & Htmp & Hrun & Heff).
    split.
    + apply Heff, not_eq_sym. by apply tempName_fresh.
    + eexists. split; [exact Hh|]. intros source destination Hin.
      inversion Hrun; subst; unfold locking in Hin; simpl in Hin;
        naive_solver.
  - pose proof (SetFile_run a name value true w) as R. cbv zeta in R.
    unfold storage.SetFile in H. rewrite H in R.
    destruct R as (tmp & evs & _ & Hh & _ & _ & Htmp & Hrun & Heff).
    split.
    + apply Heff, not_eq_sym. by apply tempName_fresh.
    + eexists. split; [exact Hh|]. intros source destination Hin.
      inversion Hrun; subst; unfold locking in Hin; simpl in Hin;
        naive_solver.
Qed.


(** What a successful [SetString] leaves behind. *)
Lemma SetString_stored (v : string) (w w1 : World) :
  storage.SetString a name v w = Some (None, w1) →
  files w1 = <[path := list_byte_of_string (strings.TrimSpace v)]> (files w) ∧
  mu w1 = {| writer := false; readers := 0 |}.
Proof.
  intros H. pose proof (SetString_run a name v w) as R. cbv zeta in R.
  rewrite H in R.
  destruct R as (Hfree & tmp & mid & _ & Hmu & _ & _ & _ & Heff).
  split; [exact Heff|]. by rewrite Hmu, (free_unlocked _ Hfree).
Qed.

(** What [GetString] returns when the file holds [data]. *)
Lemma GetString_stored (data : bytes) (w : World) :
  files w !! path = Some data → writer (mu w) = false →
  ∃ v err w',
    storage.GetString a name w = Some ((v, err), w') ∧
    os.IsNotExist err = false ∧
    (err = None → v = strings.TrimSpace (string_of_list_byte data)) ∧
    (err ≠ None → v = "") ∧
    (hd None (faults w) = None → hd None (tail (faults w)) = None →
     err = None).
Proof.
  intros Hdata Hw. pose proof (GetString_run a name w) as R. cbv zeta in R.
  destruct (storage.GetString a name w) as [[[v err] w']|]; [|congruence].
  exists v, err, w'. split; [done|].
  destruct R as (_ & _ & _ & _ & evs & _ & R). fold path in R.
  rewrite Hdata in R.
  destruct (hd None (faults w)) as [flt|].
  { destruct R as (-> & -> & _). by repeat split. }
  destruct R as (c & _ & R).
  destruct (hd None (tail (faults w))) as [flt|]; destruct R as [-> ->];
    by repeat split.
Qed.

(** C3. After a successful [SetString name v], [GetString name]
    returns [v] with its leading and trailing white space trimmed (and
    it does return it when no fault strikes the read): [v] is white
    space, then the value returned, then white space, and the value
    returned neither starts nor ends with white space. Trimming is
    idempotent: the value returned is unchanged by trimming it again.
    In particular ["  hello  "] comes back as ["hello"]. *)
Theorem SetString_GetString_roundtrip (v : string) (w w1 : World) :
  storage.SetString a name v w = Some (None, w1) →
  (∀ r w2, storage.GetString a name w1 = Some ((r, None), w2) →
           r = strings.TrimSpace v ∧ strings.TrimSpace r = r) ∧
  (faults w1 = [] →
   ∃ w2, storage.GetString a name w1 = Some ((strings.TrimSpace v, None), w2)) ∧
  (∃ l t,
     list_byte_of_string v =
       (l ++ list_byte_of_string (strings.TrimSpace v) ++ t)%list ∧
     strings.allSpace l = true ∧ strings.allSpace t = true ∧
     strings.noLeadingSpace (list_byte_of_string (strings.TrimSpace v)) ∧
     strings.noTrailingSpace (list_byte_of_string (strings.TrimSpace v))) ∧
  strings.TrimSpace "  hello  " = "hello".
Proof.
  intros H. apply SetString_stored in H as [Hfiles Hmu].
  destruct (GetString_stored (list_byte_of_string (strings.TrimSpace v)) w1)
    as (r & err & w2 & Hget & _ & Hok & _ & Hnofault).
  { fold path. by rewrite Hfiles, lookup_insert_eq. }
  { by rewrite Hmu. }
  rewrite string_of_list_byte_of_string, strings_TrimSpace_idem in Hok.
  split; [|split; [|split; [|by vm_compute]]];
    [| |unfold strings.TrimSpace;
        rewrite list_byte_of_string_of_list_byte;
        apply TrimSpaceBytes_cut].
  - intros r' w2' Hget'. rewrite Hget' in Hget. injection Hget as -> <- ->.
    rewrite (Hok eq_refl). split; [done | apply strings_TrimSpace_idem].
  - intros Hf. rewrite Hf in Hnofault. specialize (Hnofault eq_refl eq_refl).
    subst err. rewrite (Hok eq_refl) in Hget. by exists w2.
Qed.


(** What [GetString] returns when there is no file. *)
Lemma GetString_missing (w : World) :
  files w !! path = None → writer (mu w) = false →
  ∃ w', storage.GetString a name w =
        Some (("", Some (PathError "open" path ENOENT)), w').
Proof.
  intros Hnone Hw. pose proof (GetString_run a name w) as R. cbv zeta in R.
  destruct (storage.GetString a name w) as [[[v err] w']|]; [|congruence].
  destruct R as (_ & _ & _ & _ & evs & _ & R). fold path in R.
  rewrite Hnone in R. destruct R as (-> & -> & _). by exists w'.
Qed.

(** C4. After a successful [SetFile name value], the file holds
    exactly the bytes of the stream, whatever they are, and [GetFile
    name] gives a handle that reads back those bytes: nothing is
    trimmed or transformed. *)
Theorem SetFile_GetFile_identical (value : ReadSeeker) (w w1 : World) :
  storage.SetFile a name value w = Some (None, w1) →
  files w1 !! storage.resolvePath a name = Some (remaining value) ∧
  (∀ h err w2, storage.GetFile a name w1 = Some ((Some h, err), w2) →
               contents h = remaining value) ∧
  (hd None (faults w1) = None →
   ∃ h w2, storage.GetFile a name w1 = Some ((Some h, None), w2) ∧
           contents h = remaining value).
Proof.
  intros H. pose proof (SetFile_run a name value true w) as R. cbv zeta in R.
  unfold storage.SetFile in H. rewrite H in R.
  destruct R as (tmp & evs & Hfree & _ & Hmu & _ & _ & _ & Heff).
  cbn [writeEffect] in Heff.
  assert (files w1 !! path = Some (remaining value)) as Hdata
    by (by rewrite Heff; apply lookup_insert_eq).
  assert (writer (mu w1) = false) as Hw
    by (by rewrite Hmu, (free_unlocked _ (Hfree eq_refl eq_refl))).
  pose proof (GetFile_run a name w1) as G. cbv zeta in G. fold path in G.
  rewrite Hdata in G. split; [exact Hdata|].
  destruct (storage.GetFile a name w1) as [[[h err] w2]|]; [|congruence].
  destruct G as (_ & _ & _ & G). split.
  - intros h' err' w2' [= -> -> ->].
    destruct (hd None (faults w1)); [by destruct G|].
    destruct G as (_ & f & [= ->] & _). done.
  - intros Hf. rewrite Hf in G. destruct G as (-> & f & -> & _).
    by eexists _, _.
Qed.

(** C5. [GetString] fails with NotFound exactly when there is no file
    at the resolved path. Any other failure is the error of the read
    itself, which names the stage that failed (opening the file or
    reading it) and the path. Whether it succeeds or fails, [GetString]
    leaves the files, the lock and the open descriptors as they
    were. *)
Theorem GetString_errors (w w' : World) (v : string) (err : option error) :
  storage.GetString a name w = Some ((v, err), w') →
  (os.IsNotExist err = true ↔ files w !! storage.resolvePath a name = None) ∧
  (∀ e, err = Some e → os.IsNotExist err = false →
     ∃ stage c evs,
       e = PathError stage (storage.resolvePath a name) (EFault c) ∧
       history w' = (history w ++ evs)%list ∧
       ((stage = "open" ∧ In (COpen (storage.resolvePath a name), Some e) evs) ∨
        (stage = "read" ∧ In (CRead (storage.resolvePath a name), Some e) evs))) ∧
  (err = None →
     ∃ data, files w !! storage.resolvePath a name = Some data ∧
             v = strings.TrimSpace (string_of_list_byte data)) ∧
  (files w' = files w ∧ mu w' = mu w ∧ fds w' = fds w).
Proof.
  intros H. pose proof (GetString_run a name w) as R. cbv zeta in R.
  rewrite H in R. destruct R as (_ & Hf & Hm & Hd & evs & Hh & R).
  split; [|split; [|split; [|done]]].
  - destruct (files w !! storage.resolvePath a name) as [data|].
    + destruct (hd None (faults w)); [by destruct R as (_ & -> & _)|].
      destruct R as (c & _ & R).
      by destruct (hd None (tail (faults w))); destruct R as [_ ->].
    + by destruct R as (_ & -> & _).
  - intros e -> Hnot.
    destruct (files w !! storage.resolvePath a name) as [data|].
    + destruct (hd None (faults w)) as [flt|].
      * destruct R as (_ & [= ->] & ->).
        eexists _, _, _. split; [done|]. split; [done|]. left. simpl. tauto.
      * destruct R as (c & -> & R).
        destruct (hd None (tail (faults w))) as [flt|];
          destruct R as [_ [= ->]].
        eexists _, _, _. split; [done|]. split; [done|]. right. simpl. tauto.
    + by destruct R as (_ & [= ->] & _).
  - intros ->.
    destruct (files w !! storage.resolvePath a name) as [data|].
    + destruct (hd None (faults w)); [by destruct R as (_ & ? & _)|].
      destruct R as (c & _ & R).
      destruct (hd None (tail (faults w))); destruct R as [-> ?]; [done|].
      by exists data.
    + by destruct R as (_ & ? & _).
Qed.

(** C6. [RemoveFile] deletes the file at the resolved path; it fails
    with NotFound when there is no file, and with another error,
    leaving the file, when the removal itself fails. So after a
    successful [SetString] and a successful [RemoveFile] of the same
    name, [GetString] fails with NotFound. *)
Theorem RemoveFile_removes (w w' : World) (err : option error) :
  storage.RemoveFile a name w = Some (err, w') →
  (files w !! storage.resolvePath a name = None →
   os.IsNotExist err = true ∧ files w' = files w) ∧
  (is_Some (files w !! storage.resolvePath a name) →
   os.IsNotExist err = false ∧ (err ≠ None → files w' = files w)) ∧
  (err = None →
   is_Some (files w !! storage.resolvePath a name) ∧
   files w' = delete (storage.resolvePath a name) (files w)) ∧
  (∀ v w0, storage.SetString a name v w0 = Some (None, w) → err = None →
     ∃ e w3, storage.GetString a name w' = Some (("", Some e), w3) ∧
             os.IsNotExist (Some e) = true).
Proof.
  intros H. pose proof (RemoveFile_run a name w) as R. cbv zeta in R.
  rewrite H in R. destruct R as (Hfree & Hmu & _ & R).
  assert (err = None →
          is_Some (files w !! storage.resolvePath a name) ∧
          files w' = delete (storage.resolvePath a name) (files w)) as Hok.
  { intros ->. destruct (files w !! storage.resolvePath a name); [|by destruct R].
    split; [by eexists|].
    by destruct (hd None (faults w)); destruct R. }
  split; [|split; [|split; [exact Hok|]]].
  - intros Hnone. rewrite Hnone in R. by destruct R as [-> ->].
  - intros [data Hdata]. rewrite Hdata in R.
    by destruct (hd None (faults w)); destruct R as [-> ->].
  - intros v w0 _ Herr. destruct (Hok Herr) as [_ Hfiles].
    destruct (GetString_missing w') as [w3 Hget].
    + fold path. rewrite Hfiles. apply lookup_delete_eq.
    + by rewrite Hmu, (free_unlocked _ Hfree).
    + by eexists _, _.
Qed.

(** C7, as the code has it. [SetFile] takes the lock only immediately
    before the replace: creating, writing, syncing and closing the
    temporary file are done without it. [SetString] does not: it takes
    the lock first and gives it back last, so all of its work on the
    temporary file is done under the lock. *)
Theorem lock_discipline
    (c : WriteCall) (w w' : World) (err : option error) (evs : list Event) :
  write a name c w = Some (err, w') →
  history w' = (history w ++ evs)%list →
  match c with
  | CallSetFile _ => preparedUnlocked evs ∧ lockedForReplace evs
  | CallSetString _ =>
    (∃ mid, evs = ((CLock, None) :: mid ++ [(CUnlock, None)])%list ∧
            Forall (λ ev, isLocking ev.1 = false) mid) ∧
    (∀ pre c r post, evs = (pre ++ (c, r) :: post)%list →
       preparation c = true → holdsLock pre = true)
  end.
Proof.
  intros H Hevs. destruct c as [v|value]; cbn [write] in H.
  - pose proof (SetString_run a name v w) as R. cbv zeta in R.
    rewrite H in R.
    destruct R as (_ & tmp & mid & Hh & _ & _ & _ & Hrun & _).
    rewrite Hh in Hevs. apply app_inv_head in Hevs. subst evs. split.
    + exists mid. split; [done|].
      inversion Hrun; subst; unfold locking; simpl;
        repeat constructor.
    + intros pre c r post E Hc.
      assert (everyCall (λ held c, implb (preparation c) held) false
                ([(CLock, None)] ++ mid ++ [(CUnlock, None)]) = true) as Hall
        by (inversion Hrun; reflexivity).
      pose proof (everyCall_spec _ _ _ Hall pre c r post E) as Hp.
      simpl in Hp. by rewrite Hc in Hp.
  - pose proof (SetFile_run a name value true w) as R. cbv zeta in R.
    unfold storage.SetFile in H. rewrite H in R.
    destruct R as (tmp & evs' & _ & Hh & _ & _ & _ & Hrun & _).
    rewrite Hh in Hevs. apply app_inv_head in Hevs. subst evs'. split.
    + apply preparedUnlocked_check. inversion Hrun; reflexivity.
    + apply lockedForReplace_check. inversion Hrun; reflexivity.
Qed.

(** C8. [SetFile] is [setFile] with locking asked for, and nothing
    else: every replace it makes is made under the write lock, and a
    successful call does make one. The opt-out exists only in
    [setFile], whose calls with [block = false] never touch the
    lock. *)
Theorem SetFile_replaces_under_lock
    (value : ReadSeeker) (w w' : World) (err : option error)
    (evs : list Event) :
  storage.SetFile a name value w = Some (err, w') →
  history w' = (history w ++ evs)%list →
  storage.SetFile a name value = storage.setFile a name value true ∧
  replacedLocked evs ∧
  (err = None →
   ∃ pre tmp post,
     evs = (pre ++ (CRename tmp (storage.resolvePath a name), None) :: post)%list ∧
     holdsLock pre = true) ∧
  (∀ err2 w2 evs2,
     storage.setFile a name value false w = Some (err2, w2) →
     history w2 = (history w ++ evs2)%list →
     Forall (λ ev, isLocking ev.1 = false) evs2).
Proof.
  intros H Hevs. split; [reflexivity|].
  pose proof (SetFile_run a name value true w) as R. cbv zeta in R.
  unfold storage.SetFile in H. rewrite H in R.
  destruct R as (tmp & evs' & _ & Hh & _ & _ & _ & Hrun & _).
  rewrite Hh in Hevs. apply app_inv_head in Hevs. subst evs'.
  split; [|split].
  - apply replacedLocked_check. inversion Hrun; reflexivity.
  - intros ->. inversion Hrun; subst.
    eexists [_; _; _; _; _], tmp, _. split; reflexivity.
  - intros err2 w2 evs2 H2 Hevs2.
    pose proof (SetFile_run a name value false w) as R. cbv zeta in R.
    rewrite H2 in R.
    destruct R as (tmp2 & evs' & _ & Hh2 & _ & _ & _ & Hrun2 & _).
    rewrite Hh2 in Hevs2. apply app_inv_head in Hevs2. subst evs'.
    inversion Hrun2; subst; unfold locking; simpl; repeat constructor.
Qed.

(** C9. Once [setFile] has created its temporary file, the last thing
    it does on every way out, success or failure, is to try to remove
    that file, and the result of the removal is dropped: a write that
    succeeds returns no error although its removal always fails (the
    file has been renamed away), and a write that fails returns the
    wrapped error of the step that failed, which is the stream's or
    that of a call made before the removal. *)
Theorem cleanup_scheduled_and_silent
    (value : ReadSeeker) (block : bool) (w w' : World)
    (err : option error) (evs rest : list Event) :
  storage.setFile a name value block w = Some (err, w') →
  history w' = (history w ++ evs)%list →
  evs = (CTempFile (tempDir (storage.resolvePath a name))
                   (baseName (storage.resolvePath a name)), None) :: rest →
  ∃ tmp we pre r,
    tempName (tempDir (storage.resolvePath a name))
             (baseName (storage.resolvePath a name)) tmp ∧
    rest = ((CWrite tmp, we) :: pre ++ [(CRemove tmp, r)])%list ∧
    (err = None → r = Some (PathError "remove" tmp ENOENT)) ∧
    (∀ e, err = Some e →
       ∃ stage cause,
         e = errors.WithMessage cause (stageMessage stage) ∧
         (failure value = Some cause ∨
          ∃ c, In (c, Some cause) ((CWrite tmp, we) :: pre))).
Proof.
  intros H Hevs Hrest.
  pose proof (SetFile_run a name value block w) as R. cbv zeta in R.
  rewrite H in R.
  destruct R as (tmp & evs' & _ & Hh & _ & _ & Htmp & Hrun & _).
  rewrite Hh in Hevs. apply app_inv_head in Hevs. subst evs'.
  exists tmp.
  inversion Hrun as [e|e we c r Hwe|e c r|e r|e r|Hfail];
    subst; cbn [app] in *; try discriminate;
    match goal with H : _ :: _ = _ :: rest |- _ => injection H as <- end.
  - exists we, [(CClose tmp, c)], r.
    split; [done|]. split; [done|]. split; [done|].
    intros e' [= <-]. exists StSave, e.
    split; [done|]. destruct Hwe as [->|[_ ?]]; [right|by left].
    eexists. by left.
  - exists None, [(CSync tmp, Some e); (CClose tmp, c)], r.
    split; [done|]. split; [done|]. split; [done|].
    intros e' [= <-]. exists StSync, e. split; [done|]. right.
    eexists. right. by left.
  - eexists None, [_; _; _], r.
    split; [done|]. split; [reflexivity|]. split; [done|].
    intros e' [= <-]. exists StClose, e. split; [done|]. right.
    eexists. right. right. by left.
  - destruct block; unfold locking; simpl.
    + eexists None, [_; _; _; _; _; _], r.
      split; [done|]. split; [reflexivity|]. split; [done|].
      intros e' [= <-]. exists StReplace, e. split; [done|]. right.
      eexists. do 4 right. by left.
    + eexists None, [_; _; _; _], r.
      split; [done|]. split; [reflexivity|]. split; [done|].
      intros e' [= <-]. exists StReplace, e. split; [done|]. right.
      eexists. do 3 right. by left.
  - destruct block; unfold locking; simpl.
    + eexists None, [_; _; _; _; _; _], _.
      split; [done|]. split; [reflexivity|]. by split.
    + eexists None, [_; _; _; _], _.
      split; [done|]. split; [reflexivity|]. by split.
Qed.

(** C10. A successful [SetString] of a value that is white space only
    (the empty string included) leaves at the resolved path a file of
    zero bytes; it does not remove it. A following [GetString] never
    fails with NotFound, returns the empty string, and returns it
    without error when no fault strikes the read. *)
Theorem SetString_blank_stores_empty (v : string) (w w1 : World) :
  strings.onlySpace v = true →
  storage.SetString a name v w = Some (None, w1) →
  files w1 !! storage.resolvePath a name = Some [] ∧
  (∀ r err w2, storage.GetString a name w1 = Some ((r, err), w2) →
               r = "" ∧ os.IsNotExist err = false) ∧
  (faults w1 = [] →
   ∃ w2, storage.GetString a name w1 = Some (("", None), w2)).
Proof.
  intros Hv H. apply SetString_stored in H as [Hfiles Hmu].
  rewrite (onlySpace_TrimSpace _ Hv) in Hfiles. cbn in Hfiles.
  assert (files w1 !! path = Some []) as Hdata
    by (by rewrite Hfiles; apply lookup_insert_eq).
  destruct (GetString_stored [] w1 Hdata) as
    (r & err & w2 & Hget & Hnot & Hok & Hbad & Hnofault);
    [by rewrite Hmu|].
  split; [exact Hdata|split].
  - intros r' err' w2' Hget'. rewrite Hget' in Hget.
    injection Hget as -> -> ->. split; [|done].
    destruct err; [by apply Hbad | by rewrite Hok].
  - intros Hf. rewrite Hf in Hnofault. specialize (Hnofault eq_refl eq_refl).
    subst err. rewrite (Hok eq_refl) in Hget. by exists w2.
Qed.

End Claims.

(** * Beyond the claims *)

(** ** More about the runs *)

Section MoreWriting.

Variable wrap : Stage → error → error.
Variable block : bool.
Variable filename : string.
Variable value : ReadSeeker.

(** Where a write waits, what a failing stream makes of it, and what a
    failed write leaves in the name space. *)
Lemma writeProtocol_leftover (w : World) :
  match writeProtocol wrap block filename value w with
  | Some (err, w') =>
    (failure value ≠ None →
     err ≠ None ∧
     ∃ evs, history w' = (history w ++ evs)%list ∧
            Forall (λ ev, isLocking ev.1 = false) evs) ∧
    (err ≠ None →
     files w' = files w ∨
     ∃ tmp re, last (history w') = Some (CRemove tmp, Some re) ∧
               files w !! tmp = None ∧ is_Some (files w' !! tmp))
  | None => failure value = None
  end.
Proof.
  unfold writeProtocol.
  pose proof (TempFile_run (tempDir filename) (baseName filename) w)
    as (r & w1 & Hrun & Hh & Hmu & Hc).
  unfold tempDir, baseName in Hrun.
  destruct (filepath.Split filename) as [dir file] eqn:HS.
  cbn [fst snd] in Hrun. unfold bind at 1. rewrite Hrun.
  destruct r as [[f|] [e|]]; try done.
  - destruct Hc as (Htmp & Hnone & Hfiles & Hfd & Hfds).
    pose proof (tempName_fresh _ _ Htmp) as Hne.
    destruct f as [fd tmp]. cbn [Fd Name snd] in *.
    destruct w1 as [F1 D1 R1 L1 M1 H1]. cbn [files fds mu history] in *.
    subst F1 D1 M1 H1.
    assert (bool_decide (fd ∈ {[fd]} ∪ fds w) = true) as Hin
      by (apply bool_decide_eq_true_2; set_solver).
    assert (bool_decide (fd ∈ ({[fd]} ∪ fds w) ∖ {[fd]}) = false) as Hout
      by (apply bool_decide_eq_false_2; set_solver).
    repeat (run;
      first
        [ rewrite Hin | rewrite Hout
        | rewrite lookup_alter_eq | rewrite lookup_insert_eq
        | rewrite (lookup_insert_ne _ filename tmp) by done
        | rewrite lookup_delete_eq
        | match goal with
          | |- context [match hd None ?l with _ => _ end] =>
            destruct (hd None l) as [?flt|]
          | |- context [match failure value with _ => _ end] =>
            destruct (failure value) as [?e|] eqn:?Hfail
          | |- context [if block then _ else _] => destruct block
          | |- context [if sync.free ?m then _ else _] =>
            destruct (sync.free m) eqn:?Hfree
          end ]).
    all: run.
    all: try reflexivity.
    all: split;
      [ intros Hv; try done;
        (split; [done|]); eexists;
        (split; [rewrite <- ?app_assoc; reflexivity|]); repeat constructor
      | intros He; try done ].
    all: first
      [ left; apply map_eq; intros p;
        destruct (decide (p = tmp)) as [->|Hq];
        [ by rewrite lookup_delete_eq, Hnone
        | by rewrite lookup_delete_ne, lookup_alter_ne, lookup_insert_ne ]
      | right; exists tmp; eexists;
        split; [apply last_snoc|]; split; [exact Hnone|];
        rewrite lookup_alter_eq, lookup_insert_eq; by eexists ].
  - destruct Hc as [Hf Hd]. run. split.
    + intros _. split; [done|]. eexists. split; [exact Hh|].
      by repeat constructor.
    + intros _. by left.
Qed.

End MoreWriting.

Section MoreBlocking.

Variable wrap : Stage → error → error.
Variable filename : string.
Variable value : ReadSeeker.

(** With the lock free, asking for it or not makes no difference to
    what a write returns and leaves. *)
Lemma writeProtocol_block (w : World) :
  sync.free (mu w) = true →
  match writeProtocol wrap true filename value w,
        writeProtocol wrap false filename value w with
  | Some (err1, w1), Some (err2, w2) =>
    err1 = err2 ∧ files w1 = files w2 ∧ fds w1 = fds w2 ∧ mu w1 = mu w2 ∧
    faults w1 = faults w2 ∧ rand w1 = rand w2
  | _, _ => False
  end.
Proof.
  intros Hfree. apply free_unlocked in Hfree.
  unfold writeProtocol.
  pose proof (TempFile_run (tempDir filename) (baseName filename) w)
    as (r & w1 & Hrun & Hh & Hmu & Hc).
  unfold tempDir, baseName in Hrun.
  destruct (filepath.Split filename) as [dir file] eqn:HS.
  cbn [fst snd] in Hrun. run. rewrite Hrun.
  destruct r as [[f|] [e|]]; try done.
  destruct Hc as (Htmp & Hnone & Hfiles & Hfd & Hfds).
  pose proof (tempName_fresh _ _ Htmp) as Hne.
  destruct f as [fd tmp]. cbn [Fd Name snd] in *.
  destruct w1 as [F1 D1 R1 L1 M1 H1]. cbn [files fds mu history] in *.
  subst F1 D1 M1 H1. rewrite Hfree.
  assert (bool_decide (fd ∈ {[fd]} ∪ fds w) = true) as Hin
    by (apply bool_decide_eq_true_2; set_solver).
  assert (bool_decide (fd ∈ ({[fd]} ∪ fds w) ∖ {[fd]}) = false) as Hout
    by (apply bool_decide_eq_false_2; set_solver).
  assert (sync.free {| writer := false; readers := 0 |} = true) as Hfr
    by reflexivity.
  repeat (run;
    first
      [ rewrite Hin | rewrite Hout | rewrite Hfr
      | rewrite lookup_alter_eq | rewrite lookup_insert_eq
      | rewrite (lookup_insert_ne _ filename tmp) by done
      | rewrite lookup_delete_eq
      | match goal with
        | |- context [match hd None ?l with _ => _ end] =>
          destruct (hd None l) as [?flt|]
        | |- context [match failure value with _ => _ end] =>
          destruct (failure value) as [?e|] eqn:?Hfail
        end ]).
  all: run; by repeat split.
Qed.

End MoreBlocking.

Section MoreMethods.

Variable a : storage.FileSystemBase.
Variable name : storage.FSName.

(** [GetFile], with the descriptor it hands out. *)
Lemma GetFile_full (w : World) :
  let path := storage.resolvePath a name in
  match storage.GetFile a name w with
  | Some ((h, err), w') =>
    writer (mu w) = false ∧ files w' = files w ∧ mu w' = mu w ∧
    match h with
    | Some hd =>
      err = None ∧ Name (handle hd) = path ∧
      files w !! path = Some (contents hd) ∧
      (Fd (handle hd) ∉ fds w) ∧ fds w' = {[Fd (handle hd)]} ∪ fds w
    | None =>
      fds w' = fds w ∧
      ((err = Some (PathError "open" path ENOENT) ∧ files w !! path = None) ∨
       (∃ c, err = Some (PathError "open" path (EFault c)) ∧
             is_Some (files w !! path)))
    end
  | None => writer (mu w) = true
  end.
Proof.
  intros path. unfold storage.GetFile, storage.getFile. fold path.
  assert (∀ m, writer m = false →
               {| writer := false; readers := readers m |} = m) as Hmu
    by (by intros [[] n]).
  run. destruct (writer (mu w)) eqn:Hw; [done|]. run.
  destruct (files w !! path) as [data|] eqn:Hdata; run.
  - destruct (hd None (faults w)) as [flt|]; run; rewrite (Hmu _ Hw).
    + repeat split; try done. right. by eexists.
    + rewrite Hdata. repeat split; try done. apply is_fresh.
  - rewrite (Hmu _ Hw). repeat split; try done. by left.
Qed.

(** What a successful write, of either kind, leaves behind. *)
Lemma write_stored (c : WriteCall) (w w' : World) :
  write a name c w = Some (None, w') →
  files w' = <[storage.resolvePath a name := content c]> (files w) ∧
  mu w' = {| writer := false; readers := 0 |}.
Proof.
  intros H. destruct c as [v|value]; cbn [write content] in *.
  - by apply SetString_stored.
  - pose proof (SetFile_run a name value true w) as R. cbv zeta in R.
    unfold storage.SetFile in H. rewrite H in R.
    destruct R as (tmp & evs & Hfree & _ & Hmu & _ & _ & _ & Heff).
    split; [exact Heff|].
    by rewrite Hmu, (free_unlocked _ (Hfree eq_refl eq_refl)).
Qed.

(** What a failed write, of either kind, leaves alone. *)
Lemma write_failed (c : WriteCall) (w w' : World) (e : error) :
  write a name c w = Some (Some e, w') →
  files w' !! storage.resolvePath a name = files w !! storage.resolvePath a name ∧
  mu w' = mu w.
Proof.
  intros H. destruct c as [v|value]; cbn [write] in H.
  - pose proof (SetString_run a name v w) as R. cbv zeta in R.
    rewrite H in R.
    destruct R as (_ & tmp & mid & _ & Hmu & _ & Htmp & _ & Heff).
    split; [|done]. apply Heff, not_eq_sym. by apply tempName_fresh.
  - pose proof (SetFile_run a name value true w) as R. cbv zeta in R.
    unfold storage.SetFile in H. rewrite H in R.
    destruct R as (tmp & evs & _ & _ & Hmu & _ & Htmp & _ & Heff).
    split; [|done]. apply Heff, not_eq_sym. by apply tempName_fresh.
Qed.

(** Reading back, both ways, a file that holds [data], when no fault
    strikes. *)
Lemma read_back (data : bytes) (w : World) :
  files w !! storage.resolvePath a name = Some data →
  writer (mu w) = false → faults w = [] →
  (∃ w', storage.GetString a name w =
         Some ((strings.TrimSpace (string_of_list_byte data), None), w')) ∧
  (∃ h w', storage.GetFile a name w = Some ((Some h, None), w') ∧
           contents h = data).
Proof.
  intros Hdata Hw Hf. split.
  - destruct (GetString_stored a name data w Hdata Hw)
      as (v & err & w' & Hget & _ & Hok & _ & Hnofault).
    rewrite Hf in Hnofault. specialize (Hnofault eq_refl eq_refl). subst err.
    rewrite (Hok eq_refl) in Hget. by exists w'.
  - pose proof (GetFile_run a name w) as G. cbv zeta in G.
    destruct (storage.GetFile a name w) as [[[h err] w']|]; [|congruence].
    rewrite Hdata, Hf in G. destruct G as (_ & _ & _ & -> & f & -> & _).
    by eexists _, _.
Qed.

End MoreMethods.

(** ** The properties *)

Section Extras.

Variable a : storage.FileSystemBase.
Variable name : storage.FSName.

(** X1. No method keeps the lock or a descriptor of its own: when a
    call returns, with or without an error, the lock is in the state the
    call found it in, and so is the table of open descriptors; only a
    successful [GetFile] leaves one more open, the caller's. *)
Theorem methods_give_back_lock_and_descriptors
    (m : Method) (w w' : World) (err : option error) :
  call a name m w = Some (err, w') →
  mu w' = mu w ∧
  match m with
  | MGetFile => err ≠ None → fds w' = fds w
  | _ => fds w' = fds w
  end.
Proof.
  intros H. destruct m as [| |v|value|]; cbn [call] in H.
  - unfold bind in H. pose proof (GetString_run a name w) as R. cbv zeta in R.
    destruct (storage.GetString a name w) as [[[v e] w1]|]; [|done].
    injection H as <- <-. by destruct R as (_ & _ & ? & ? & _).
  - unfold bind in H. pose proof (GetFile_full a name w) as R. cbv zeta in R.
    destruct (storage.GetFile a name w) as [[[h e] w1]|]; [|done].
    injection H as <- <-. destruct R as (_ & _ & Hmu & R). split; [done|].
    intros He. destruct h as [hd|]; [by destruct R | by destruct R].
  - pose proof (SetString_run a name v w) as R. cbv zeta in R.
    rewrite H in R. by destruct R as (_ & tmp & mid & _ & ? & ? & _).
  - pose proof (SetFile_run a name value true w) as R. cbv zeta in R.
    unfold storage.SetFile in H. rewrite H in R.
    by destruct R as (tmp & evs & _ & _ & ? & ? & _).
  - pose proof (RemoveFile_run a name w) as R. cbv zeta in R.
    rewrite H in R. by destruct R as (_ & ? & ? & _).
Qed.


(** X3. A [SetFile] whose stream ends in an error returns an error,
    whoever holds the lock: it never asks for the lock, and it leaves
    the lock alone. *)
Theorem failing_stream_never_waits
    (value : ReadSeeker) (w : World) (e : error) :
  failure value = Some e →
  ∃ err w' evs,
    storage.SetFile a name value w = Some (Some err, w') ∧
    history w' = (history w ++ evs)%list ∧
    Forall (λ ev, isLocking ev.1 = false) evs ∧
    mu w' = mu w.
Proof.
  intros Hv. unfold storage.SetFile.
  pose proof (writeProtocol_leftover withStage true
                (storage.resolvePath a name) value w) as L.
  pose proof (SetFile_run a name value true w) as R. cbv zeta in R.
  rewrite setFile_protocol in R |- *.
  destruct (writeProtocol withStage true (storage.resolvePath a name) value w)
    as [[err w']|]; [|congruence].
  destruct L as [L _]. destruct L as (Herr & evs & Hh & Hall); [congruence|].
  destruct err as [err|]; [|done].
  exists err, w', evs. repeat split; try done.
  by destruct R as (tmp & evs' & _ & _ & ? & _).
Qed.

(** X4. A successful write, [SetString] or [SetFile], changes the
    destination and nothing else: the path holds the bytes written
    (trimmed, for [SetString]) and every other path, temporary names
    included, holds what it held or is as absent as it was. *)
Theorem successful_write_changes_only_destination
    (c : WriteCall) (w w' : World) :
  write a name c w = Some (None, w') →
  files w' !! storage.resolvePath a name = Some (content c) ∧
  ∀ p, p ≠ storage.resolvePath a name → files w' !! p = files w !! p.
Proof.
  intros H. apply write_stored in H as [-> _]. split.
  - apply lookup_insert_eq.
  - intros p Hp. by apply lookup_insert_ne.
Qed.

(** X5. The last write wins, whole: after two successful writes of the
    same name the files are what the second write alone would have
    left; nothing of the first remains. *)
Theorem last_write_wins (c1 c2 : WriteCall) (w w1 w2 : World) :
  write a name c1 w = Some (None, w1) →
  write a name c2 w1 = Some (None, w2) →
  files w2 = <[storage.resolvePath a name := content c2]> (files w).
Proof.
  intros H1 H2. apply write_stored in H2 as [-> _].
  apply write_stored in H1 as [-> _]. apply insert_insert_eq.
Qed.

(** X6. The two ways to read see the one stored blob, whichever way it
    was written: after a successful write and with no fault on the
    read, [GetFile] gives the bytes written and [GetString] gives them
    trimmed. So text written by [SetFile] is trimmed when read by
    [GetString], and [GetFile] after [SetString] reads the trimmed
    text. *)
Theorem both_views_read_the_stored_bytes (c : WriteCall) (w w1 : World) :
  write a name c w = Some (None, w1) → faults w1 = [] →
  (∃ w2, storage.GetString a name w1 =
         Some ((strings.TrimSpace (string_of_list_byte (content c)), None),
               w2)) ∧
  (∃ h w2, storage.GetFile a name w1 = Some ((Some h, None), w2) ∧
           contents h = content c).
Proof.
  intros H Hf. apply write_stored in H as [Hfiles Hmu].
  apply read_back; [|by rewrite Hmu|done].
  rewrite Hfiles. apply lookup_insert_eq.
Qed.

(** X7. [RemoveFile] touches no other path, whatever it returns; and
    removing twice fails the second time with NotFound and changes
    nothing. *)
Theorem RemoveFile_only_its_path_and_once
    (w w' : World) (err : option error) :
  storage.RemoveFile a name w = Some (err, w') →
  (∀ p, p ≠ storage.resolvePath a name → files w' !! p = files w !! p) ∧
  (err = None →
   ∃ w'', storage.RemoveFile a name w' =
          Some (Some (PathError "remove" (storage.resolvePath a name) ENOENT),
                w'') ∧
          files w'' = files w').
Proof.
  intros H. pose proof (RemoveFile_run a name w) as R. cbv zeta in R.
  rewrite H in R. destruct R as (Hfree & Hmu & _ & R).
  assert (files w' = files w ∨
          (err = None ∧
           files w' = delete (storage.resolvePath a name) (files w))) as Hcase.
  { destruct (files w !! storage.resolvePath a name);
      [destruct (hd None (faults w))|]; destruct R as [-> ->]; auto. }
  split.
  - intros p Hp. destruct Hcase as [->|[_ ->]]; [done|].
    by apply lookup_delete_ne.
  - intros ->.
    assert (files w' !! storage.resolvePath a name = None) as Hgone.
    { destruct (files w !! storage.resolvePath a name) eqn:E.
      - destruct (hd None (faults w)); destruct R as [? ->]; [done|].
        apply lookup_delete_eq.
      - by destruct R. }
    pose proof (RemoveFile_run a name w') as R2. cbv zeta in R2.
    destruct (storage.RemoveFile a name w') as [[e2 w2]|];
      [|by rewrite Hmu, Hfree in R2].
    rewrite Hgone in R2. destruct R2 as (_ & _ & _ & -> & Hsame).
    by exists w2.
Qed.

(** X8. [GetFile] fails with NotFound exactly when there is no file at
    the resolved path; its only other failure is that of opening the
    file. A failure gives no handle and opens nothing. A success gives
    a handle on the resolved path that reads the bytes the file holds,
    under a descriptor that was not open before and is left open for
    the caller. Either way the files and the lock are as they were. *)
Theorem GetFile_errors
    (w w' : World) (h : option ReadonlyFile) (err : option error) :
  storage.GetFile a name w = Some ((h, err), w') →
  (os.IsNotExist err = true ↔ files w !! storage.resolvePath a name = None) ∧
  (∀ e, err = Some e → os.IsNotExist err = false →
        ∃ c, e = PathError "open" (storage.resolvePath a name) (EFault c)) ∧
  (err ≠ None → h = None ∧ fds w' = fds w) ∧
  (err = None →
   ∃ hd, h = Some hd ∧
         Name (handle hd) = storage.resolvePath a name ∧
         files w !! storage.resolvePath a name = Some (contents hd) ∧
         (Fd (handle hd) ∉ fds w) ∧ fds w' = {[Fd (handle hd)]} ∪ fds w) ∧
  files w' = files w ∧ mu w' = mu w.
Proof.
  intros H. pose proof (GetFile_full a name w) as R. cbv zeta in R.
  rewrite H in R. destruct R as (_ & Hf & Hm & R).
  destruct h as [hd|].
  - destruct R as (-> & Hn & Hc & Hfd & Hfds). repeat split; try done.
    + by rewrite Hc.
    + intros _. by exists hd.
  - destruct R as (Hfds & [[-> Hnone]|(c & -> & [data Hdata])]).
    + repeat split; try done.
    + repeat split; try done.
      * by rewrite Hdata.
      * intros e [= <-] _. by exists c.
Qed.

(** X9. A failed [setFile] litters only if its cleanup failed: either
    the whole name space is exactly as it was before the call, or the
    last call made was the removal of the temporary file, it failed,
    and that file, absent before, is left behind. *)
Theorem temporary_file_left_only_if_removal_failed
    (value : ReadSeeker) (block : bool) (w w' : World) (e : error) :
  storage.setFile a name value block w = Some (Some e, w') →
  files w' = files w ∨
  ∃ tmp re, last (history w') = Some (CRemove tmp, Some re) ∧
            files w !! tmp = None ∧ is_Some (files w' !! tmp).
Proof.
  intros H. rewrite setFile_protocol in H.
  pose proof (writeProtocol_leftover withStage block
                (storage.resolvePath a name) value w) as L.
  rewrite H in L. by apply L.
Qed.

(** X10. The [block] parameter of [setFile] decides about the lock and
    about nothing else: started with the lock free, the call that locks
    and the call that does not return the same error and leave the same
    files, descriptors, lock and pending decisions. *)
Theorem block_decides_only_the_lock (value : ReadSeeker) (w : World) :
  sync.free (mu w) = true →
  ∃ err w1 w2,
    storage.setFile a name value true w = Some (err, w1) ∧
    storage.setFile a name value false w = Some (err, w2) ∧
    files w1 = files w2 ∧ fds w1 = fds w2 ∧ mu w1 = mu w2 ∧
    faults w1 = faults w2.
Proof.
  intros Hfree. rewrite !setFile_protocol.
  pose proof (writeProtocol_block withStage (storage.resolvePath a name)
                value w Hfree) as B.
  destruct (writeProtocol withStage true _ _ w) as [[e1 w1]|]; [|done].
  destruct (writeProtocol withStage false _ _ w) as [[e2 w2]|]; [|done].
  destruct B as (-> & ? & ? & ? & ? & _). by exists e2, w1, w2.
Qed.

(** X11. A failed overwrite keeps the previous value readable: after a
    successful write and then a failed one of the same name, [GetString]
    and [GetFile] (no fault striking them) return what the successful
    write stored. *)
Theorem failed_overwrite_keeps_previous_value
    (c1 c2 : WriteCall) (w w1 w2 : World) (e : error) :
  write a name c1 w = Some (None, w1) →
  write a name c2 w1 = Some (Some e, w2) →
  faults w2 = [] →
  (∃ w3, storage.GetString a name w2 =
         Some ((strings.TrimSpace (string_of_list_byte (content c1)), None),
               w3)) ∧
  (∃ h w3, storage.GetFile a name w2 = Some ((Some h, None), w3) ∧
           contents h = content c1).
Proof.
  intros H1 H2 Hf. apply write_stored in H1 as [Hfiles Hmu].
  apply write_failed in H2 as [Hkeep Hmu2].
  apply read_back; [|by rewrite Hmu2, Hmu|done].
  rewrite Hkeep, Hfiles. apply lookup_insert_eq.
Qed.

(** X12. No [setFile], failed or not, changes or removes a file that
    exists under another path: the temporary file is created under a
    name nothing is stored at, and only it and the destination are
    ever written, renamed or removed. *)
Theorem write_never_disturbs_existing_files
    (value : ReadSeeker) (block : bool) (w w' : World) (err : option error) :
  storage.setFile a name value block w = Some (err, w') →
  ∀ p, p ≠ storage.resolvePath a name → is_Some (files w !! p) →
       files w' !! p = files w !! p.
Proof.
  intros H p Hp [data Hdata].
  pose proof (SetFile_run a name value block w) as R. cbv zeta in R.
  rewrite H in R.
  destruct R as (tmp & evs & _ & Hh & _ & _ & _ & Hrun & Heff).
  destruct err as [e|]; cbn [writeEffect] in Heff;
    [|by rewrite Heff, lookup_insert_ne].
  rewrite setFile_protocol in H.
  pose proof (writeProtocol_leftover withStage block
                (storage.resolvePath a name) value w) as L.
  rewrite H in L. destruct L as [_ [->|(tmp' & re & Hlast & Hnone & _)]];
    [done..|].
  apply Heff. intros ->.
  assert (tmp = tmp'); [|congruence].
  rewrite Hh in Hlast.
  inversion Hrun; subst; unfold locking in Hlast; destruct block;
    cbn [app] in Hlast; rewrite last_app_cons in Hlast;
    cbn in Hlast; congruence.
Qed.

End Extras.

(** ** The model at work *)

Example TrimSpace_hello : strings.TrimSpace "  hello  " = "hello".
Proof. vm_compute. reflexivity. Qed.

Example TrimSpace_inner :
  strings.TrimSpace (String "009" (String "010" "a b" ++ String "013" " ")) = "a b".
Proof. vm_compute. reflexivity. Qed.

(** U+00A0 (C2 A0) and U+3000 (E3 80 80) are white space; a lone C2 is not. *)
Example TrimSpace_unicode :
  strings.TrimSpaceBytes [xc2; xa0; x41; xc2; xe3; x80; x80] = [x41; xc2].
Proof. vm_compute. reflexivity. Qed.

Example Split_nested : filepath.Split "a/b/c.txt" = ("a/b/", "c.txt").
Proof. reflexivity. Qed.

Example Split_bare : filepath.Split "c.txt" = ("", "c.txt").
Proof. reflexivity. Qed.

Example tempDir_bare : tempDir "c.txt" = ".".
Proof. reflexivity. Qed.

Example prefixAndSuffix_star : ioutil.prefixAndSuffix "a*b*c" = ("a*b", "c").
Proof. reflexivity. Qed.

(** One successful [SetFile], call by call. *)
Example SetFile_history :
  history (after (storage.SetFile underData "k" (bytes_.NewReader old))
                 (world ∅ [])) =
  [(CTempFile "data/" "k", None);
   (CWrite "data/k083814273", None);
   (CSync "data/k083814273", None);
   (CClose "data/k083814273", None);
   (CLock, None);
   (CRename "data/k083814273" "data/k", None);
   (CUnlock, None);
   (CClose "data/k083814273",
    Some (PathError "close" "data/k083814273" ErrClosed));
   (CRemove "data/k083814273",
    Some (PathError "remove" "data/k083814273" ENOENT))].
Proof. vm_compute. reflexivity. Qed.

(** The same write through [SetString] is made under the lock from its
    first call to its last. *)
Example SetString_history :
  history (after (storage.SetString underData "k" "old") (world ∅ [])) =
  [(CLock, None);
   (CTempFile "data/" "k", None);
   (CWrite "data/k083814273", None);
   (CSync "data/k083814273", None);
   (CClose "data/k083814273", None);
   (CRename "data/k083814273" "data/k", None);
   (CClose "data/k083814273",
    Some (PathError "close" "data/k083814273" ErrClosed));
   (CRemove "data/k083814273",
    Some (PathError "remove" "data/k083814273" ENOENT));
   (CUnlock, None)].
Proof. vm_compute. reflexivity. Qed.

(** A writer that finds the lock taken waits; a write that fails before
    the replace returns without having asked for it. *)
Example SetFile_waits :
  storage.SetFile underData "k" (bytes_.NewReader old)
    (set_mu {| writer := false; readers := 1 |} (world ∅ [])) = None.
Proof. vm_compute. reflexivity. Qed.

(** * The claims at concrete inputs *)

(** Overwriting ["old"] with ["new"] fails at the sync: the destination
    still holds ["old"]. *)
Lemma failed_write_keeps_destination_witness :
  files (after (write underData "k"
                  (CallSetFile (bytes_.NewReader ["n"; "e"; "w"]%byte)))
               (world {["data/k" := old]} syncFails)) !! "data/k" = Some old.
Proof.
  set (c := CallSetFile (bytes_.NewReader ["n"; "e"; "w"]%byte)).
  set (w := world {["data/k" := old]} syncFails).
  destruct (failed_write_keeps_destination underData "k" c w
              (after (write underData "k" c) w)
              (withMessage (PathError "sync" "data/k083814273" (EFault EIO))
                           "sync changes")) as [H _].
  - vm_compute. reflexivity.
  - etransitivity; [exact H|]. vm_compute. reflexivity.
Defined.

Lemma SetString_GetString_roundtrip_witness :
  ∃ w2, storage.GetString underData "k"
          (after (storage.SetString underData "k" "  hello  ") (world ∅ [])) =
        Some (("hello", None), w2).
Proof.
  destruct (SetString_GetString_roundtrip underData "k" "  hello  " (world ∅ [])
              (after (storage.SetString underData "k" "  hello  ") (world ∅ [])))
    as (_ & H & _).
  - vm_compute. reflexivity.
  - apply H. vm_compute. reflexivity.
Defined.

(** A null byte, two bytes that are not UTF-8, a space and a newline. *)
Lemma SetFile_GetFile_identical_witness :
  ∃ h w2,
    storage.GetFile underData "k"
      (after (storage.SetFile underData "k"
                (bytes_.NewReader [x00; xff; x80; x20; x0a]))
             (world ∅ [])) = Some ((Some h, None), w2) ∧
    contents h = [x00; xff; x80; x20; x0a].
Proof.
  set (r := bytes_.NewReader [x00; xff; x80; x20; x0a]).
  destruct (SetFile_GetFile_identical underData "k" r (world ∅ [])
              (after (storage.SetFile underData "k" r) (world ∅ [])))
    as (_ & _ & H).
  - vm_compute. reflexivity.
  - apply H. vm_compute. reflexivity.
Defined.

Lemma GetString_errors_witness :
  os.IsNotExist (Some (PathError "open" "data/missing" ENOENT)) = true ↔
  files (world ∅ []) !! "data/missing" = None.
Proof.
  refine (proj1 (GetString_errors underData "missing" (world ∅ [])
                   (after (storage.GetString underData "missing") (world ∅ []))
                   "" (Some (PathError "open" "data/missing" ENOENT)) _)).
  vm_compute. reflexivity.
Defined.

Lemma RemoveFile_removes_witness :
  files (after (storage.RemoveFile underData "k")
               (world {["data/k" := old]} [])) =
  delete "data/k" {["data/k" := old]}.
Proof.
  set (w := world {["data/k" := old]} []).
  destruct (RemoveFile_removes underData "k" w
              (after (storage.RemoveFile underData "k") w) None)
    as (_ & _ & H & _).
  - vm_compute. reflexivity.
  - exact (proj2 (H eq_refl)).
Defined.

(** C7, as stated, fails: [SetString] creates its temporary file while
    it holds the lock. *)
Lemma SetString_prepares_under_lock :
  ¬ (∀ a name c, locksOnlyToReplace (write a name c)).
Proof.
  intros H.
  set (m := write underData "k" (CallSetString "x")).
  destruct (H underData "k" (CallSetString "x") (world ∅ []) None
              (after m (world ∅ [])) (history (after m (world ∅ []))))
    as [Hp _].
  - vm_compute. reflexivity.
  - reflexivity.
  - assert (holdsLock [(CLock, None)] = false) as X; [|discriminate X].
    apply (Hp _ (CTempFile "data/" "k") None
              (tail (tail (history (after m (world ∅ []))))));
      [vm_compute; reflexivity | reflexivity].
Qed.

Lemma lock_discipline_witness :
  preparedUnlocked
    (history (after (storage.SetFile underData "k" (bytes_.NewReader old))
                    (world ∅ []))) ∧
  lockedForReplace
    (history (after (storage.SetFile underData "k" (bytes_.NewReader old))
                    (world ∅ []))).
Proof.
  set (c := CallSetFile (bytes_.NewReader old)).
  apply (lock_discipline underData "k" c (world ∅ [])
           (after (write underData "k" c) (world ∅ [])) None).
  - vm_compute. reflexivity.
  - reflexivity.
Defined.

Lemma SetFile_replaces_under_lock_witness :
  replacedLocked
    (history (after (storage.SetFile underData "k" (bytes_.NewReader old))
                    (world ∅ []))).
Proof.
  set (r := bytes_.NewReader old).
  destruct (SetFile_replaces_under_lock underData "k" r (world ∅ [])
              (after (storage.SetFile underData "k" r) (world ∅ [])) None
              (history (after (storage.SetFile underData "k" r) (world ∅ []))))
    as (_ & H & _).
  - vm_compute. reflexivity.
  - reflexivity.
  - exact H.
Defined.

(** The write fails at the sync and the removal of the temporary file
    comes last. *)
Lemma cleanup_scheduled_and_silent_witness :
  ∃ tmp we pre r,
    tempName "data/" "k" tmp ∧
    tail (history (after (storage.setFile underData "k" (bytes_.NewReader old) true)
                         (world ∅ syncFails))) =
      ((CWrite tmp, we) :: pre ++ [(CRemove tmp, r)])%list.
Proof.
  set (r := bytes_.NewReader old). set (w := world ∅ syncFails).
  destruct (cleanup_scheduled_and_silent underData "k" r true w
              (after (storage.setFile underData "k" r true) w)
              (Some (withMessage
                       (PathError "sync" "data/k083814273" (EFault EIO))
                       "sync changes"))
              (history (after (storage.setFile underData "k" r true) w))
              (tail (history (after (storage.setFile underData "k" r true) w))))
    as (tmp & we & pre & rm & Htmp & Hrest & _).
  - vm_compute. reflexivity.
  - reflexivity.
  - vm_compute. reflexivity.
  - by exists tmp, we, pre, rm.
Defined.

(** A tab, a space and a no-break space (C2 A0). *)
Lemma SetString_blank_stores_empty_witness :
  files (after (storage.SetString underData "k"
                  (String "009" (String " " (String "194" (String "160" ""))))) 
               (world {["data/k" := old]} [])) !! "data/k" = Some [].
Proof.
  set (v := String "009" (String " " (String "194" (String "160" "")))).
  set (w := world {["data/k" := old]} []).
  destruct (SetString_blank_stores_empty underData "k" v w
              (after (storage.SetString underData "k" v) w)) as (H & _).
  - vm_compute. reflexivity.
  - vm_compute. reflexivity.
  - exact H.
Defined.

(** * The further properties at concrete inputs *)

Lemma methods_give_back_lock_and_descriptors_witness :
  mu (after (call underData "k" (MSetFile (bytes_.NewReader old)))
            (world ∅ syncFails)) = mu (world ∅ syncFails) ∧
  fds (after (call underData "k" (MSetFile (bytes_.NewReader old)))
             (world ∅ syncFails)) = fds (world ∅ syncFails).
Proof.
  set (m := MSetFile (bytes_.NewReader old)).
  apply (methods_give_back_lock_and_descriptors underData "k" m
           (world ∅ syncFails) (after (call underData "k" m) (world ∅ syncFails))
           (Some (withMessage (PathError "sync" "data/k083814273" (EFault EIO))
                              "sync changes"))).
  vm_compute. reflexivity.
Defined.

(** The stream breaks while a writer holds the lock. *)
Lemma failing_stream_never_waits_witness :
  ∃ err w' evs,
    storage.SetFile underData "k"
      {| remaining := old; failure := Some (streamError "broken") |}
      (set_mu {| writer := true; readers := 0 |} (world ∅ [])) =
      Some (Some err, w') ∧
    history w' =
      (history (set_mu {| writer := true; readers := 0 |} (world ∅ [])) ++ evs)%list ∧
    Forall (λ ev, isLocking ev.1 = false) evs ∧
    mu w' = mu (set_mu {| writer := true; readers := 0 |} (world ∅ [])).
Proof.
  exact (failing_stream_never_waits underData "k"
           {| remaining := old; failure := Some (streamError "broken") |}
           (set_mu {| writer := true; readers := 0 |} (world ∅ []))
           (streamError "broken") eq_refl).
Defined.

Lemma successful_write_changes_only_destination_witness :
  files (after (write underData "k" (CallSetString " x "))
               (world {["data/other" := old]} [])) !! "data/other" = Some old.
Proof.
  set (c := CallSetString " x "). set (w := world {["data/other" := old]} []).
  destruct (successful_write_changes_only_destination underData "k" c w
              (after (write underData "k" c) w)) as [_ H].
  - vm_compute. reflexivity.
  - etransitivity; [by apply H|]. vm_compute. reflexivity.
Defined.

Lemma last_write_wins_witness :
  files (after (write underData "k" (CallSetFile (bytes_.NewReader old)))
               (after (write underData "k" (CallSetString "first"))
                      (world ∅ []))) =
  <["data/k" := old]> ∅.
Proof.
  set (c1 := CallSetString "first").
  set (c2 := CallSetFile (bytes_.NewReader old)).
  apply (last_write_wins underData "k" c1 c2 (world ∅ [])
           (after (write underData "k" c1) (world ∅ []))).
  - vm_compute. reflexivity.
  - vm_compute. reflexivity.
Defined.

(** Text written as a file, " x ", is read as the string "x". *)
Lemma both_views_read_the_stored_bytes_witness :
  ∃ w2, storage.GetString underData "k"
          (after (write underData "k"
                    (CallSetFile (bytes_.NewReader [x20; x78; x20])))
                 (world ∅ [])) = Some (("x", None), w2).
Proof.
  set (c := CallSetFile (bytes_.NewReader [x20; x78; x20])).
  destruct (both_views_read_the_stored_bytes underData "k" c (world ∅ [])
              (after (write underData "k" c) (world ∅ []))) as [H _].
  - vm_compute. reflexivity.
  - vm_compute. reflexivity.
  - exact H.
Defined.

Lemma RemoveFile_only_its_path_and_once_witness :
  ∃ w'',
    storage.RemoveFile underData "k"
      (after (storage.RemoveFile underData "k")
             (world {["data/k" := old]} [])) =
    Some (Some (PathError "remove" "data/k" ENOENT), w'') ∧
    files w'' = files (after (storage.RemoveFile underData "k")
                             (world {["data/k" := old]} [])).
Proof.
  set (w := world {["data/k" := old]} []).
  destruct (RemoveFile_only_its_path_and_once underData "k" w
              (after (storage.RemoveFile underData "k") w) None) as [_ H].
  - vm_compute. reflexivity.
  - exact (H eq_refl).
Defined.

Lemma GetFile_errors_witness :
  os.IsNotExist (Some (PathError "open" "data/missing" ENOENT)) = true ↔
  files (world ∅ []) !! "data/missing" = None.
Proof.
  refine (proj1 (GetFile_errors underData "missing" (world ∅ [])
                   (after (storage.GetFile underData "missing") (world ∅ []))
                   None (Some (PathError "open" "data/missing" ENOENT)) _)).
  vm_compute. reflexivity.
Defined.

(** The sync fails and then the removal of the temporary file fails
    too. *)
Lemma temporary_file_left_only_if_removal_failed_witness :
  let w := world ∅ (syncFails ++
                    [None; Some {| errno := EACCES; progress := 0 |}]) in
  let w' := after (storage.setFile underData "k" (bytes_.NewReader old) true) w in
  files w' = files w ∨
  ∃ tmp re, last (history w') = Some (CRemove tmp, Some re) ∧
            files w !! tmp = None ∧ is_Some (files w' !! tmp).
Proof.
  apply (temporary_file_left_only_if_removal_failed underData "k"
           (bytes_.NewReader old) true _ _
           (withMessage (PathError "sync" "data/k083814273" (EFault EIO))
                        "sync changes")).
  vm_compute. reflexivity.
Defined.

Lemma block_decides_only_the_lock_witness :
  ∃ err w1 w2,
    storage.setFile underData "k" (bytes_.NewReader old) true (world ∅ []) =
      Some (err, w1) ∧
    storage.setFile underData "k" (bytes_.NewReader old) false (world ∅ []) =
      Some (err, w2) ∧
    files w1 = files w2 ∧ fds w1 = fds w2 ∧ mu w1 = mu w2 ∧
    faults w1 = faults w2.
Proof.
  exact (block_decides_only_the_lock underData "k" (bytes_.NewReader old)
           (world ∅ []) eq_refl).
Defined.

(** "v1" is stored; overwriting it fails at the sync; "v1" is read. *)
Lemma failed_overwrite_keeps_previous_value_witness :
  ∃ w3,
    storage.GetString underData "k"
      (after (write underData "k" (CallSetFile (bytes_.NewReader old)))
             (after (write underData "k" (CallSetString "v1"))
                    (world ∅ ([None; None; None; None; None] ++ syncFails)))) =
    Some (("v1", None), w3).
Proof.
  set (c1 := CallSetString "v1").
  set (c2 := CallSetFile (bytes_.NewReader old)).
  set (w := world ∅ ([None; None; None; None; None] ++ syncFails)).
  destruct (failed_overwrite_keeps_previous_value underData "k" c1 c2 w
              (after (write underData "k" c1) w)
              (after (write underData "k" c2) (after (write underData "k" c1) w))
              (withMessage (PathError "sync" "data/k378494188" (EFault EIO))
                           "sync changes")) as [H _].
  - vm_compute. reflexivity.
  - vm_compute. reflexivity.
  - vm_compute. reflexivity.
  - exact H.
Defined.

Lemma write_never_disturbs_existing_files_witness :
  files (after (storage.setFile underData "k" (bytes_.NewReader old) true)
               (world {["data/other" := old]} syncFails)) !! "data/other" =
  Some old.
Proof.
  set (w := world {["data/other" := old]} syncFails).
  etransitivity.
  - apply (write_never_disturbs_existing_files underData "k"
             (bytes_.NewReader old) true w
             (after (storage.setFile underData "k" (bytes_.NewReader old) true) w)
             (Some (withMessage
                      (PathError "sync" "data/k083814273" (EFault EIO))
                      "sync changes"))).
    + vm_compute. reflexivity.
    + done.
    + by eexists.
  - vm_compute. reflexivity.
Defined.
